(** * LinqService: an eager query wrapper over a JavaScript array

    A shallow embedding of [src/linq/service/linqService.ts], and the
    properties of its fifteen methods.

    - Arrays of elements are objects: they live in a store and are known by
      their reference, so that in-place operations ([Array.prototype.sort],
      [push]) and aliasing ([this.data = data]) are visible.
    - Methods are computations in a state-and-exception monad over that
      store; [throw new Error(..)] is an abrupt completion.
    - The element type [T] is abstract: any type of defined values
      ([Array.prototype.sort] moves [undefined] elements to the end without
      calling the comparator; such arrays are not modelled).  Leibniz
      equality on [T] stands for the SameValueZero comparison that [Set] and
      [Map] use: a primitive is its value, an object is its reference.
    - [number] is IEEE 754 binary64, as in the language.
    - Callbacks (predicates, selectors) are total functions without effects.
    - An engine accepts only so many arguments in one call: a call that
      spreads an array into its arguments ([Math.max(...values)]) throws a
      RangeError when the array is longer.  The limit is the engine's, a
      parameter of the model.  Memory is not modelled. *)

From Stdlib Require Import ZArith Floats Uint63 String.
From stdpp Require Import base list sorting.

Module Linq.

(** ** The store, completions and the monad *)

(** A reference is the address of an array object. *)
Abbreviation ref := nat (only parsing).

(** The store: the elements of the array object at each address. *)
Abbreviation heap T := (list (list T)) (only parsing).

Inductive exn : Type :=
| Error (message : string)   (* new Error(message) *)
| TypeError                  (* a property read through a reference that is no array *)
| RangeError.                (* a call with more arguments than the engine accepts *)

Definition InvalidOperationException : exn := Error "InvalidOperationException".

Inductive completion (A : Type) : Type :=
| Normal (value : A)
| Throw (e : exn).
Arguments Normal {A} value.
Arguments Throw {A} e.

Definition number := float.

(** The engine that runs the code: the greatest number of arguments it
    accepts in one call.  The language leaves it to the implementation. *)
Class Engine : Type := { max_arguments : N }.

(** An array length (an integer below 2^32) read as a number. *)
Definition number_of_length (n : nat) : number :=
  PrimFloat.of_uint63 (Uint63.of_Z (Z.of_nat n)).

Definition is_pos_zero (x : number) : bool := PrimFloat.is_zero x && negb (PrimFloat.get_sign x).
Definition is_neg_zero (x : number) : bool := PrimFloat.is_zero x && PrimFloat.get_sign x.

(** [Math.max(...values)]: NaN if any argument is NaN; otherwise the running
    highest value starting from -Infinity, with +0 above -0. *)
Definition Math_max (values : list number) : number :=
  if existsb PrimFloat.is_nan values then PrimFloat.nan
  else fold_left
         (fun highest x =>
            if is_pos_zero x && is_neg_zero highest then x
            else if PrimFloat.ltb highest x then x else highest)
         values PrimFloat.neg_infinity.

(** [Math.min(...values)], symmetrically from +Infinity, with -0 below +0. *)
Definition Math_min (values : list number) : number :=
  if existsb PrimFloat.is_nan values then PrimFloat.nan
  else fold_left
         (fun lowest x =>
            if is_neg_zero x && is_pos_zero lowest then x
            else if PrimFloat.ltb x lowest then x else lowest)
         values PrimFloat.infinity.

(** The relational operators on a key type: [a < b]; the language evaluates
    [a > b] as [b < a]. *)
Class RelOps (K : Type) := js_lt : K -> K -> bool.
Definition js_gt {K} `{RelOps K} (a b : K) : bool := js_lt b a.

(** Two keys tie when neither is smaller: the comparators of [orderBy] and
    [orderByDescending] then return 0. *)
Definition same_key {K} `{RelOps K} (a b : K) : bool :=
  negb (js_lt a b) && negb (js_lt b a).

(** [a] may stand before [b] in ascending order of keys: the key of [b] is
    not smaller. *)
Definition in_order {T K} `{RelOps K} (keySelector : T -> K) (a b : T) : Prop :=
  js_lt (keySelector b) (keySelector a) = false.

(** [a] may stand before [b] in descending order of keys: the key of [a] is
    not smaller. *)
Definition in_reverse_order {T K} `{RelOps K} (keySelector : T -> K) (a b : T) : Prop :=
  js_lt (keySelector a) (keySelector b) = false.

(** The converse order on keys. *)
Definition converse {K} (ops : RelOps K) : RelOps K := fun a b => js_lt b a.

(** A key type is totally ordered when [<] is a strict total order. *)
Class TotalOrderKey (K : Type) `{RelOps K} : Prop := {
  js_lt_irrefl : forall a : K, js_lt a a = false;
  js_lt_trans : forall a b c : K, js_lt a b = true -> js_lt b c = true -> js_lt a c = true;
  js_lt_connected : forall a b : K, js_lt a b = false -> js_lt b a = false -> a = b
}.

(** [Set]: values in insertion order, compared by SameValueZero.
    [new Set(iterable)] adds the values one by one; [add] of a value that is
    present changes nothing. *)
Definition Set_add {A} `{EqDecision A} (s : list A) (x : A) : list A :=
  if decide (x ∈ s) then s else s ++ [x].
Definition new_Set {A} `{EqDecision A} (a : list A) : list A :=
  fold_left Set_add a [].

(** The first occurrences in a list: the value at an index is kept when it
    does not occur at an earlier index. *)
Definition first_occurrences {A} `{EqDecision A} (l : list A) : list A :=
  concat (imap (fun i x => if decide (x ∈ take i l) then [] else [x]) l).

Section Model.
Context {T : Type} `{EqDecision T} {engine : Engine}.

Definition js (A : Type) : Type := heap T -> completion A * heap T.

Definition ret {A} (a : A) : js A := fun h => (Normal a, h).
Definition throw {A} (e : exn) : js A := fun h => (Throw e, h).
Definition bind {A B} (m : js A) (k : A -> js B) : js B :=
  fun h => match m h with
           | (Normal a, h') => k a h'
           | (Throw e, h') => (Throw e, h')
           end.

Notation "'let*' x ':=' m 'in' k" := (bind m (fun x => k))
  (at level 10, x name, m at level 100, k at level 200, only parsing).

(** Reading the array behind a reference. *)
Definition deref (r : ref) : js (list T) :=
  fun h => match h !! r with
           | Some a => (Normal a, h)
           | None => (Throw TypeError, h)
           end.

(** Allocating a new array object. *)
Definition new_array (a : list T) : js ref :=
  fun h => (Normal (length h), h ++ [a]).

(** Overwriting the elements of an existing array object, in place. *)
Definition store (r : ref) (a : list T) : js unit :=
  fun h => (Normal tt, <[r := a]> h).

(** [[...arr]]: a new array with the same elements. *)
Definition spread (r : ref) : js ref := let* a := deref r in new_array a.

(** ** Built-ins *)

(** [Array.prototype.filter]: a new array. *)
Fixpoint filter_elements (predicate : T -> bool) (a : list T) : list T :=
  match a with
  | [] => []
  | x :: a' => if predicate x then x :: filter_elements predicate a'
               else filter_elements predicate a'
  end.
Definition Array_filter (r : ref) (predicate : T -> bool) : js ref :=
  let* a := deref r in new_array (filter_elements predicate a).

(** The elements whose derived key is [key], in their order in [a]. *)
Definition elements_with_key {K} `{EqDecision K} (keySelector : T -> K) (a : list T)
    (key : K) : list T :=
  filter_elements (fun x => bool_decide (keySelector x = key)) a.

(** [Array.prototype.map]: a new array, of another element type; it is never
    aliased with an array of elements and is returned by value. *)
Fixpoint map_elements {R} (selector : T -> R) (a : list T) : list R :=
  match a with
  | [] => []
  | x :: a' => selector x :: map_elements selector a'
  end.
Definition Array_map {R} (r : ref) (selector : T -> R) : js (list R) :=
  let* a := deref r in ret (map_elements selector a).

(** [Array.prototype.some] / [every], stopping at the first decisive element. *)
Fixpoint some_element (predicate : T -> bool) (a : list T) : bool :=
  match a with
  | [] => false
  | x :: a' => if predicate x then true else some_element predicate a'
  end.
Fixpoint every_element (predicate : T -> bool) (a : list T) : bool :=
  match a with
  | [] => true
  | x :: a' => if predicate x then every_element predicate a' else false
  end.
Definition Array_some (r : ref) (predicate : T -> bool) : js bool :=
  let* a := deref r in ret (some_element predicate a).
Definition Array_every (r : ref) (predicate : T -> bool) : js bool :=
  let* a := deref r in ret (every_element predicate a).

(** [Array.prototype.sort(compareFn)]: stable, in place, returns the same
    reference.  The sequence of comparisons is left to the engine; for a
    consistent comparator every stable sort produces the same array, here
    that of insertion sort: each element in turn is placed in the sorted
    prefix, behind every element that does not compare greater. *)
Fixpoint insert_sorted (compareFn : T -> T -> Z) (x : T) (prefix : list T) : list T :=
  match prefix with
  | [] => [x]
  | y :: rest => if (0 <? compareFn y x)%Z then x :: y :: rest
                 else y :: insert_sorted compareFn x rest
  end.
Definition sort_elements (compareFn : T -> T -> Z) (a : list T) : list T :=
  fold_left (fun prefix x => insert_sorted compareFn x prefix) a [].
Definition Array_sort (r : ref) (compareFn : T -> T -> Z) : js ref :=
  let* a := deref r in
  let* _ := store r (sort_elements compareFn a) in
  ret r.

(** [f(...values)]: the elements of the array become the arguments of the
    call, which the engine refuses when they are too many. *)
Definition call_spread {A} (f : list number -> A) (values : list number) : js A :=
  if (N.of_nat (length values) <=? max_arguments)%N then ret (f values)
  else throw RangeError.

(** [Array.prototype.reduce(callback, initial)] on an array of numbers. *)
Definition Array_reduce (callback : number -> number -> number)
    (values : list number) (initial : number) : number :=
  fold_left callback values initial.

(** [Map<K, T[]>]: entries in insertion order, keys compared by
    SameValueZero; each value is a reference to an array.  [set] on a key
    that is present replaces the value and keeps the entry's position. *)
Section Maps.
Context {K : Type} `{EqDecision K}.

Definition Map := list (K * ref).

Definition Map_has (m : Map) (key : K) : bool :=
  bool_decide (key ∈ m.*1).
Fixpoint Map_get (m : Map) (key : K) : option ref :=
  match m with
  | [] => None
  | (k, v) :: m' => if decide (k = key) then Some v else Map_get m' key
  end.
Fixpoint Map_set (m : Map) (key : K) (v : ref) : Map :=
  match m with
  | [] => [(key, v)]
  | (k, v') :: m' => if decide (k = key) then (k, v) :: m'
                     else (k, v') :: Map_set m' key v
  end.

End Maps.

(** [arr.push(item)], in place. *)
Definition Array_push (r : ref) (item : T) : js unit :=
  let* a := deref r in store r (a ++ [item]).

(** ** The class *)

Record LinqService : Type := constructor { data : ref }.

Definition from (d : ref) : LinqService := constructor d.

Definition where_ (this : LinqService) (predicate : T -> bool) : js ref :=
  Array_filter (data this) predicate.

Definition select {R} (this : LinqService) (selector : T -> R) : js (list R) :=
  Array_map (data this) selector.

(** The comparator of [orderBy]. *)
Definition compare_ascending {K} `{RelOps K} (keySelector : T -> K) (a b : T) : Z :=
  let keyA := keySelector a in
  let keyB := keySelector b in
  if js_gt keyA keyB then 1 else if js_lt keyA keyB then -1 else 0.

Definition orderBy {K} `{RelOps K} (this : LinqService) (keySelector : T -> K) : js ref :=
  let* copy := spread (data this) in
  Array_sort copy (compare_ascending keySelector).

(** The comparator of [orderByDescending]. *)
Definition compare_descending {K} `{RelOps K} (keySelector : T -> K) (a b : T) : Z :=
  let keyA := keySelector a in
  let keyB := keySelector b in
  if js_lt keyA keyB then 1 else if js_gt keyA keyB then -1 else 0.

Definition orderByDescending {K} `{RelOps K} (this : LinqService) (keySelector : T -> K) : js ref :=
  let* copy := spread (data this) in
  Array_sort copy (compare_descending keySelector).

(** [this.data.length === 0] is the case of the empty array; otherwise
    [this.data[0]] is its head. *)
Definition first (this : LinqService) : js T :=
  let* a := deref (data this) in
  match a with
  | [] => throw InvalidOperationException
  | x :: _ => ret x
  end.

Definition firstOrDefault (this : LinqService) (defaultValue : T) : js T :=
  let* a := deref (data this) in
  match a with
  | x :: _ => ret x
  | [] => ret defaultValue
  end.

Definition count (this : LinqService) : js nat :=
  let* a := deref (data this) in ret (length a).

Definition any (this : LinqService) (predicate : T -> bool) : js bool :=
  Array_some (data this) predicate.

Definition all (this : LinqService) (predicate : T -> bool) : js bool :=
  Array_every (data this) predicate.

Definition distinct (this : LinqService) : js ref :=
  let* a := deref (data this) in
  new_array (new_Set a).

(** The loop body of [groupBy], for one [item]. *)
Definition groupBy_step {K} `{EqDecision K} (keySelector : T -> K)
    (map : Map) (item : T) : js Map :=
  let key := keySelector item in
  let* map := (if negb (Map_has map key)
               then (let* empty := new_array [] in ret (Map_set map key empty))
               else ret map) in
  match Map_get map key with
  | Some group => let* _ := Array_push group item in ret map
  | None => throw TypeError
  end.

(** [for (const item of arr) body], over the elements [a] of the array.
    The body below writes only to arrays it allocated itself, so the
    elements met are those the array had on entry. *)
Fixpoint for_of {S} (a : list T) (body : S -> T -> js S) (s : S) : js S :=
  match a with
  | [] => ret s
  | item :: a' => let* s' := body s item in for_of a' body s'
  end.

Definition groupBy {K} `{EqDecision K} (this : LinqService) (keySelector : T -> K) : js Map :=
  let* a := deref (data this) in
  for_of a (groupBy_step keySelector) [].

Definition average (this : LinqService) (selector : T -> number) : js number :=
  let* a := deref (data this) in
  if (length a =? 0)%nat then throw InvalidOperationException
  else
    let* values := select this selector in
    let sum := Array_reduce (fun a b => PrimFloat.add a b) values PrimFloat.zero in
    ret (PrimFloat.div sum (number_of_length (length values))).

Definition max (this : LinqService) (selector : T -> number) : js number :=
  let* a := deref (data this) in
  if (length a =? 0)%nat then throw InvalidOperationException
  else let* values := select this selector in call_spread Math_max values.

Definition min (this : LinqService) (selector : T -> number) : js number :=
  let* a := deref (data this) in
  if (length a =? 0)%nat then throw InvalidOperationException
  else let* values := select this selector in call_spread Math_min values.

Definition sum (this : LinqService) (selector : T -> number) : js number :=
  let* values := select this selector in
  ret (if (length values =? 0)%nat then PrimFloat.zero
       else Array_reduce (fun a b => PrimFloat.add a b) values PrimFloat.zero).

(** The state of the loop of [groupBy] after the elements [s], started on the
    store [h0]: the keys are the first occurrences so far, the group of the
    i-th key is the i-th array allocated since, and it holds the elements of
    [s] with that key. *)
Definition groups_built {K} `{EqDecision K} (keySelector : T -> K)
    (h0 : heap T) (s : list T) (map : list (K * ref)) (h : heap T) : Prop :=
  map.*1 = new_Set (keySelector <$> s) /\
  map.*2 = seq (length h0) (length map) /\
  h = h0 ++ (elements_with_key keySelector s <$> map.*1).

(** ** Calls and what a caller observes

    One constructor per method, with its arguments.  A caller observes the
    completion of the call; of a returned array it observes the elements, of
    a returned map the entries with the elements of each group. *)

Inductive invocation : Type :=
| Where (predicate : T -> bool)
| Select (R : Type) (selector : T -> R)
| OrderBy (K : Type) (ops : RelOps K) (keySelector : T -> K)
| OrderByDescending (K : Type) (ops : RelOps K) (keySelector : T -> K)
| First
| FirstOrDefault (defaultValue : T)
| Count
| Any (predicate : T -> bool)
| All (predicate : T -> bool)
| Distinct
| GroupBy (K : Type) (eqK : EqDecision K) (keySelector : T -> K)
| Average (selector : T -> number)
| Max (selector : T -> number)
| Min (selector : T -> number)
| Sum (selector : T -> number).

Definition observation (i : invocation) : Type :=
  match i with
  | Where _ | OrderBy _ _ _ | OrderByDescending _ _ _ | Distinct => list T
  | Select R _ => list R
  | First | FirstOrDefault _ => T
  | Count => nat
  | Any _ | All _ => bool
  | GroupBy K _ _ => list (K * list T)
  | Average _ | Max _ | Min _ | Sum _ => number
  end.

(** The four methods with a [throw] statement. *)
Definition requires_elements (i : invocation) : bool :=
  match i with
  | First | Average _ | Max _ | Min _ => true
  | _ => false
  end.

(** The two methods that spread the selected values into a call. *)
Definition spreads_elements (i : invocation) : bool :=
  match i with
  | Max _ | Min _ => true
  | _ => false
  end.

Fixpoint Map_entries {K} (m : list (K * ref)) : js (list (K * list T)) :=
  match m with
  | [] => ret []
  | (k, r) :: m' =>
      let* group := deref r in
      let* rest := Map_entries m' in
      ret ((k, group) :: rest)
  end.

Definition invoke (i : invocation) (this : LinqService) : js (observation i) :=
  match i return js (observation i) with
  | Where predicate => let* r := where_ this predicate in deref r
  | Select R selector => select this selector
  | OrderBy K ops keySelector => let* r := orderBy this keySelector in deref r
  | OrderByDescending K ops keySelector =>
      let* r := orderByDescending this keySelector in deref r
  | First => first this
  | FirstOrDefault defaultValue => firstOrDefault this defaultValue
  | Count => count this
  | Any predicate => any this predicate
  | All predicate => all this predicate
  | Distinct => let* r := distinct this in deref r
  | GroupBy K eqK keySelector =>
      let* m := groupBy this keySelector in Map_entries m
  | Average selector => average this selector
  | Max selector => max this selector
  | Min selector => min this selector
  | Sum selector => sum this selector
  end.

End Model.

Arguments js T A : clear implicits.
Arguments invocation T : clear implicits.

(** ** Reading the specification

    "Exactly one representative of each value" in [d], a subsequence of [s],
    for a given notion [equal] of two elements being the same value. *)
Definition one_representative_per_value {T} (equal : T -> T -> bool)
    (s d : list T) : Prop :=
  d `sublist_of` s /\
  (forall x, x ∈ s -> exists y, y ∈ d /\ equal x y = true) /\
  (forall i j x y, d !! i = Some x -> d !! j = Some y -> equal x y = true -> i = j).

(** The sum of the selected values of the elements, accumulated from 0 in
    the order of the sequence. *)
Definition sum_of_selected {T} (selector : T -> number) (s : list T) : number :=
  fold_left (fun acc x => PrimFloat.add acc (selector x)) s PrimFloat.zero.

(** ** Data of the test suite *)

(** Integer keys, ordered by [<]. *)
#[export] Instance Z_RelOps : RelOps Z := Z.ltb.

(** An object [{ age: n }].  Two object literals are two objects: an object
    is known by its address, and SameValueZero on objects compares
    addresses.  [toEqual] of the test suite compares the properties. *)
Record person : Type := { address : nat; age : Z }.

#[export] Instance person_eq_dec : EqDecision person.
Proof. solve_decision. Defined.

Definition toEqual (a b : person) : bool := (age a =? age b)%Z.

(** [[{ age: 30 }, { age: 20 }, { age: 30 }]], three objects. *)
Definition items : list person :=
  [ {| address := 0; age := 30 |};
    {| address := 1; age := 20 |};
    {| address := 2; age := 30 |} ].

(** [[{ age: 30 }, { age: 20 }, { age: 25 }]]. *)
Definition people : list person :=
  [ {| address := 0; age := 30 |};
    {| address := 1; age := 20 |};
    {| address := 2; age := 25 |} ].

(** [[1, 2, 3]] and [[1, 2, 3, 4, 5]], as integers. *)
Definition small : list Z := [1; 2; 3]%Z.
Definition upto5 : list Z := [1; 2; 3; 4; 5]%Z.

(** The engine of the run of the code (Node 22): it refuses a call with
    200000 arguments, and with about 130000.  The exact limit depends on
    its stack; 100000 stands for it. *)
Definition node : Engine := {| max_arguments := 100000 |}.


(** [[1, 0, ..., 0]] of length 49. *)
Definition one_and_zeros : list number := PrimFloat.one :: repeat PrimFloat.zero 48.

(** [[1, 2, 3, 4, 5]]. *)
Definition numbers : list number := [1; 2; 3; 4; 5]%float.

(** * Properties *)

(** ** The store *)

Section Store.
Context {T : Type}.
Implicit Types (h : heap T) (a s : list T) (r : ref).

Lemma lookup_alloc_old h a r s : h !! r = Some s -> (h ++ [a]) !! r = Some s.
Proof. apply lookup_app_l_Some. Qed.

Lemma lookup_alloc_new h a : (h ++ [a]) !! length h = Some a.
Proof. rewrite lookup_app_r, Nat.sub_diag by lia. reflexivity. Qed.

Lemma insert_alloc_new h a b : <[length h := b]> (h ++ [a]) = h ++ [b].
Proof.
  rewrite <- (Nat.add_0_r (length h)), insert_app_r. reflexivity.
Qed.

Lemma lookup_grow_old h extra r s : h !! r = Some s -> (h ++ extra) !! r = Some s.
Proof. apply lookup_app_l_Some. Qed.

End Store.

(** Running a method body on a store where [this.data] is known. *)
Ltac run H :=
  unfold invoke;
  unfold average, max, min, sum;
  unfold where_, select, orderBy, orderByDescending, first, firstOrDefault,
    count, any, all, distinct;
  unfold Array_filter, Array_map, Array_some, Array_every, Array_sort, spread;
  unfold bind, deref, new_array, store, ret, throw;
  cbn beta iota; rewrite ?H; cbn beta iota.

Section Methods.
Context {T : Type} `{EqDecision T}.
Implicit Types (h : heap T) (s : list T) (this : LinqService).

Lemma where_spec this predicate h s :
  h !! data this = Some s ->
  where_ this predicate h = (Normal (length h), h ++ [filter_elements predicate s]).
Proof. intros H0. run H0. reflexivity. Qed.

Lemma select_spec {R} this (selector : T -> R) h s :
  h !! data this = Some s ->
  select this selector h = (Normal (map_elements selector s), h).
Proof. intros H0. run H0. reflexivity. Qed.

Lemma Array_sort_fresh h s compareFn :
  Array_sort (length h) compareFn (h ++ [s])
  = (Normal (length h), h ++ [sort_elements compareFn s]).
Proof.
  unfold Array_sort, bind, deref, store, ret.
  rewrite lookup_alloc_new, insert_alloc_new. reflexivity.
Qed.

Lemma spread_spec h r s :
  h !! r = Some s -> spread r h = (Normal (length h), h ++ [s]).
Proof. intros H0. unfold spread, bind, deref, new_array. rewrite H0. reflexivity. Qed.

End Methods.

(** ** The built-ins on elements *)

Section Elements.
Context {T : Type}.
Implicit Types (a s : list T) (p : T -> bool).

Lemma filter_elements_filter p a : filter_elements p a = List.filter p a.
Proof. induction a as [|x a IH]; cbn; [reflexivity|]. rewrite IH. reflexivity. Qed.

Lemma filter_elements_app p a1 a2 :
  filter_elements p (a1 ++ a2) = filter_elements p a1 ++ filter_elements p a2.
Proof. rewrite !filter_elements_filter. apply List.filter_app. Qed.

Lemma elem_of_filter_elements p a x :
  x ∈ filter_elements p a <-> x ∈ a /\ p x = true.
Proof.
  rewrite filter_elements_filter, !list_elem_of_In. apply List.filter_In.
Qed.

Lemma filter_elements_none p a :
  (forall x, x ∈ a -> p x = false) -> filter_elements p a = [].
Proof.
  induction a as [|x a IH]; intros Hall; cbn; [reflexivity|].
  rewrite (Hall x) by constructor. apply IH. intros z Hz. apply Hall. by constructor.
Qed.

Lemma filter_elements_ext p q a :
  (forall x, x ∈ a -> p x = q x) -> filter_elements p a = filter_elements q a.
Proof.
  induction a as [|x a IH]; intros Hall; cbn; [reflexivity|].
  rewrite (Hall x) by constructor. rewrite IH; [reflexivity|].
  intros z Hz. apply Hall. by constructor.
Qed.

Lemma map_elements_map {R} (f : T -> R) a : map_elements f a = List.map f a.
Proof. induction a as [|x a IH]; cbn; congruence. Qed.

Lemma length_map_elements {R} (f : T -> R) a : length (map_elements f a) = length a.
Proof. rewrite map_elements_map. apply List.length_map. Qed.

End Elements.

(** ** Sorting

    The facts about [Array.prototype.sort] are stated for any comparator
    that is positive exactly when its first argument has the greater key in
    some strict total order on keys; [compare_ascending] is one for [<],
    [compare_descending] one for the converse order. *)

Section Sorting.
Context {T K : Type} {ops : RelOps K} {total : TotalOrderKey K}.
Context (keySelector : T -> K) (compareFn : T -> T -> Z).
Hypothesis compareFn_positive :
  forall y x, (0 <? compareFn y x)%Z = js_lt (keySelector x) (keySelector y).

Lemma js_lt_asym (a b : K) : js_lt a b = true -> js_lt b a = false.
Proof.
  intros Hab. destruct (js_lt b a) eqn:Hba; [|reflexivity].
  pose proof (js_lt_trans _ _ _ Hab Hba) as Haa.
  rewrite js_lt_irrefl in Haa. discriminate.
Qed.

Lemma same_key_eq (a b : K) : same_key a b = true <-> a = b.
Proof.
  unfold same_key. split.
  - intros [Hab Hba]%andb_true_iff.
    apply js_lt_connected; [by destruct (js_lt a b)|by destruct (js_lt b a)].
  - intros ->. rewrite js_lt_irrefl. reflexivity.
Qed.

Lemma insert_sorted_perm x l : insert_sorted compareFn x l ≡ₚ x :: l.
Proof.
  induction l as [|y l IH]; cbn; [reflexivity|].
  destruct (0 <? compareFn y x)%Z; [reflexivity|].
  rewrite IH. apply Permutation_swap.
Qed.

Lemma sort_elements_snoc l x :
  sort_elements compareFn (l ++ [x]) = insert_sorted compareFn x (sort_elements compareFn l).
Proof. unfold sort_elements. rewrite fold_left_app. reflexivity. Qed.

Lemma sort_elements_perm l : sort_elements compareFn l ≡ₚ l.
Proof.
  induction l as [|x l IH] using rev_ind; [reflexivity|].
  rewrite sort_elements_snoc, insert_sorted_perm, IH.
  apply Permutation_cons_append.
Qed.

Lemma insert_sorted_sorted x l :
  StronglySorted (in_order keySelector) l -> StronglySorted (in_order keySelector) (insert_sorted compareFn x l).
Proof.
  induction l as [|y l IH]; cbn; intros Hs.
  - repeat constructor.
  - apply StronglySorted_cons in Hs as [Hy Hl].
    rewrite compareFn_positive.
    destruct (js_lt (keySelector x) (keySelector y)) eqn:Hxy.
    + apply StronglySorted_cons. split.
      * constructor; [by apply js_lt_asym|].
        rewrite Forall_forall in Hy |- *. intros z Hz. specialize (Hy z Hz).
        unfold in_order in *.
        destruct (js_lt (keySelector z) (keySelector x)) eqn:Hzx; [|reflexivity].
        rewrite (js_lt_trans _ _ _ Hzx Hxy) in Hy. discriminate.
      * apply StronglySorted_cons. by split.
    + apply StronglySorted_cons. split; [|by apply IH].
      rewrite Forall_forall in Hy |- *. intros z Hz.
      apply (elem_of_Permutation_proper _ _ _ (insert_sorted_perm x l)) in Hz.
      apply elem_of_cons in Hz as [->|Hz]; [exact Hxy|by apply Hy].
Qed.

Lemma sort_elements_sorted l : StronglySorted (in_order keySelector) (sort_elements compareFn l).
Proof.
  induction l as [|x l IH] using rev_ind; [constructor|].
  rewrite sort_elements_snoc. by apply insert_sorted_sorted.
Qed.

(** Stability: placing [x] in a sorted prefix leaves it behind every
    element of the same key. *)
Lemma insert_sorted_stable k x l :
  StronglySorted (in_order keySelector) l ->
  filter_elements (fun z => same_key (keySelector z) k) (insert_sorted compareFn x l)
  = filter_elements (fun z => same_key (keySelector z) k) (l ++ [x]).
Proof.
  induction l as [|y l IH]; intros Hs; [reflexivity|].
  apply StronglySorted_cons in Hs as [Hy Hl]. cbn [insert_sorted].
  rewrite compareFn_positive.
  destruct (js_lt (keySelector x) (keySelector y)) eqn:Hxy.
  - change (x :: y :: l) with ([x] ++ (y :: l)).
    rewrite !filter_elements_app.
    destruct (same_key (keySelector x) k) eqn:Hk.
    + apply same_key_eq in Hk. subst k.
      rewrite (filter_elements_none _ (y :: l)); [by rewrite app_nil_r|].
      intros z Hz. apply not_true_is_false. intros Hzx%same_key_eq.
      apply elem_of_cons in Hz as [->|Hz].
      * rewrite Hzx, js_lt_irrefl in Hxy. discriminate.
      * rewrite Forall_forall in Hy. specialize (Hy z Hz). unfold in_order in Hy.
        rewrite Hzx, Hxy in Hy. discriminate.
    + cbn [filter_elements]. rewrite Hk. by rewrite app_nil_r.
  - cbn [filter_elements app]. rewrite IH by done. reflexivity.
Qed.

Lemma sort_elements_stable k l :
  filter_elements (fun z => same_key (keySelector z) k) (sort_elements compareFn l)
  = filter_elements (fun z => same_key (keySelector z) k) l.
Proof.
  induction l as [|x l IH] using rev_ind; [reflexivity|].
  rewrite sort_elements_snoc, insert_sorted_stable by apply sort_elements_sorted.
  rewrite !filter_elements_app, IH. reflexivity.
Qed.

Lemma same_key_refl (k : K) : same_key k k = true.
Proof. by apply same_key_eq. Qed.

(** A sorted array is determined by the subsequences of its elements of each
    key. *)
Lemma sorted_stable_unique l1 l2 :
  StronglySorted (in_order keySelector) l1 ->
  StronglySorted (in_order keySelector) l2 ->
  (forall k, filter_elements (fun z => same_key (keySelector z) k) l1
             = filter_elements (fun z => same_key (keySelector z) k) l2) ->
  l1 = l2.
Proof.
  revert l2. induction l1 as [|x l1 IH]; intros l2 Hs1 Hs2 Hsame.
  - destruct l2 as [|y l2]; [reflexivity|].
    specialize (Hsame (keySelector y)). cbn in Hsame.
    rewrite same_key_refl in Hsame. discriminate.
  - destruct l2 as [|y l2].
    { specialize (Hsame (keySelector x)). cbn in Hsame.
      rewrite same_key_refl in Hsame. discriminate. }
    apply StronglySorted_cons in Hs1 as [Hx Hs1].
    apply StronglySorted_cons in Hs2 as [Hy Hs2].
    rewrite Forall_forall in Hx, Hy.
    assert (keySelector x = keySelector y) as Hkey.
    { apply js_lt_connected.
      - assert (y ∈ x :: l1) as Hin.
        { apply (elem_of_filter_elements (fun z => same_key (keySelector z) (keySelector y))).
          rewrite Hsame. cbn. rewrite same_key_refl. by left. }
        apply elem_of_cons in Hin as [->|Hin]; [apply js_lt_irrefl|].
        destruct (js_lt (keySelector x) (keySelector y)) eqn:Hxy; [|reflexivity].
        assert (x ∈ y :: l2) as Hin2.
        { apply (elem_of_filter_elements (fun z => same_key (keySelector z) (keySelector x))).
          rewrite <- Hsame. cbn. rewrite same_key_refl. by left. }
        apply elem_of_cons in Hin2 as [->|Hin2];
          [by rewrite js_lt_irrefl in Hxy|].
        specialize (Hy x Hin2). unfold in_order in Hy. congruence.
      - assert (y ∈ x :: l1) as Hin.
        { apply (elem_of_filter_elements (fun z => same_key (keySelector z) (keySelector y))).
          rewrite Hsame. cbn. rewrite same_key_refl. by left. }
        apply elem_of_cons in Hin as [->|Hin]; [apply js_lt_irrefl|].
        exact (Hx y Hin). }
    assert (x = y /\ forall k,
              filter_elements (fun z => same_key (keySelector z) k) l1
              = filter_elements (fun z => same_key (keySelector z) k) l2) as [-> Htl].
    { split.
      - specialize (Hsame (keySelector x)). cbn in Hsame.
        rewrite <- Hkey, same_key_refl in Hsame. congruence.
      - intros k. specialize (Hsame k). cbn in Hsame. rewrite <- Hkey in Hsame.
        destruct (same_key (keySelector x) k); congruence. }
    f_equal. by apply IH.
Qed.

(** So the array that [sort] leaves does not depend on the engine: whatever
    is sorted and keeps the elements of each key in the order of the input
    is the result of the insertion sort. *)
Lemma sort_elements_unique l sorted :
  StronglySorted (in_order keySelector) sorted ->
  (forall k, filter_elements (fun z => same_key (keySelector z) k) sorted
             = filter_elements (fun z => same_key (keySelector z) k) l) ->
  sorted = sort_elements compareFn l.
Proof.
  intros Hs Hst. apply sorted_stable_unique; [exact Hs|apply sort_elements_sorted|].
  intros k. by rewrite Hst, sort_elements_stable.
Qed.

End Sorting.

Section Ordering.
Context {T K : Type} {ops : RelOps K} {total : TotalOrderKey K}.
Implicit Types (h : heap T) (s : list T) (this : LinqService) (keySelector : T -> K).

Lemma converse_total : @TotalOrderKey K (converse ops).
Proof.
  split; unfold js_lt, converse.
  - apply js_lt_irrefl.
  - intros a b c Hab Hbc. exact (js_lt_trans _ _ _ Hbc Hab).
  - intros a b Hab Hba. by apply js_lt_connected.
Qed.

Lemma same_key_converse (a b : K) : @same_key K (converse ops) a b = same_key a b.
Proof. unfold same_key, js_lt at 1 2, converse. apply andb_comm. Qed.

Lemma compare_ascending_positive keySelector (y x : T) :
  (0 <? compare_ascending keySelector y x)%Z = js_lt (keySelector x) (keySelector y).
Proof.
  unfold compare_ascending, js_gt. cbn zeta.
  destruct (js_lt (keySelector x) (keySelector y)); [reflexivity|].
  by destruct (js_lt (keySelector y) (keySelector x)).
Qed.

Lemma compare_descending_positive keySelector (y x : T) :
  (0 <? compare_descending keySelector y x)%Z
  = @js_lt K (converse ops) (keySelector x) (keySelector y).
Proof.
  unfold compare_descending, js_gt, js_lt at 3, converse. cbn zeta.
  destruct (js_lt (keySelector y) (keySelector x)); [reflexivity|].
  by destruct (js_lt (keySelector x) (keySelector y)).
Qed.

Lemma orderBy_spec this keySelector h s :
  h !! data this = Some s ->
  orderBy this keySelector h
  = (Normal (length h), h ++ [sort_elements (compare_ascending keySelector) s]).
Proof.
  intros H0. unfold orderBy, bind. rewrite (spread_spec _ _ _ H0).
  apply Array_sort_fresh.
Qed.

Lemma orderByDescending_spec this keySelector h s :
  h !! data this = Some s ->
  orderByDescending this keySelector h
  = (Normal (length h), h ++ [sort_elements (compare_descending keySelector) s]).
Proof.
  intros H0. unfold orderByDescending, bind. rewrite (spread_spec _ _ _ H0).
  apply Array_sort_fresh.
Qed.

Lemma StronglySorted_reverse {A} (R : relation A) (l : list A) :
  StronglySorted R l -> StronglySorted (flip R) (reverse l).
Proof.
  induction 1 as [|x l Hl IH Hx]; [constructor|].
  rewrite reverse_cons. apply StronglySorted_app. repeat split.
  - intros x1 x2 Hx1 ->%list_elem_of_singleton.
    rewrite Forall_forall in Hx. unfold flip. apply Hx.
    by apply elem_of_reverse.
  - exact IH.
  - repeat constructor.
Qed.

Lemma ascending_sorted keySelector s :
  StronglySorted (in_order keySelector) (sort_elements (compare_ascending keySelector) s).
Proof. apply sort_elements_sorted, compare_ascending_positive. Qed.

Lemma descending_sorted keySelector s :
  StronglySorted (in_reverse_order keySelector)
    (sort_elements (compare_descending keySelector) s).
Proof.
  exact (@sort_elements_sorted T K (converse ops) converse_total keySelector _
           (compare_descending_positive keySelector) s).
Qed.

Lemma ascending_stable keySelector k s :
  filter_elements (fun z => same_key (keySelector z) k)
    (sort_elements (compare_ascending keySelector) s)
  = filter_elements (fun z => same_key (keySelector z) k) s.
Proof. apply sort_elements_stable, compare_ascending_positive. Qed.

Lemma descending_stable keySelector k s :
  filter_elements (fun z => same_key (keySelector z) k)
    (sort_elements (compare_descending keySelector) s)
  = filter_elements (fun z => same_key (keySelector z) k) s.
Proof.
  pose proof (@sort_elements_stable T K (converse ops) converse_total keySelector _
                (compare_descending_positive keySelector) k s) as Hst.
  rewrite (filter_elements_ext _ (fun z => same_key (keySelector z) k)) in Hst
    by (intros; apply same_key_converse).
  rewrite Hst. apply filter_elements_ext. intros. apply same_key_converse.
Qed.

(** The keys of the descending result are those of the ascending result,
    read backwards. *)
Lemma descending_keys_reverse keySelector s :
  keySelector <$> sort_elements (compare_descending keySelector) s
  = reverse (keySelector <$> sort_elements (compare_ascending keySelector) s).
Proof.
  assert (AntiSymm (=) (fun a b : K => js_lt a b = false)) as Hanti
    by (intros a b Hab Hba; by apply js_lt_connected).
  apply (StronglySorted_unique (fun a b : K => js_lt a b = false)).
  - apply (StronglySorted_fmap keySelector (in_reverse_order keySelector)); [|apply descending_sorted].
    intros a b Hab. exact Hab.
  - apply (StronglySorted_reverse (fun a b : K => js_lt b a = false)).
    apply (StronglySorted_fmap keySelector (in_order keySelector)); [|apply ascending_sorted].
    intros a b Hab. exact Hab.
  - rewrite reverse_Permutation.
    apply (fmap_Permutation keySelector).
    rewrite (sort_elements_perm (compare_descending keySelector)).
    by rewrite (sort_elements_perm (compare_ascending keySelector)).
Qed.

End Ordering.

(** ** [Set] and [distinct] *)

Section Sets.
Context {A : Type} `{EqDecision A}.
Implicit Types (l : list A) (x : A).

Lemma new_Set_snoc l x : new_Set (l ++ [x]) = Set_add (new_Set l) x.
Proof. unfold new_Set. rewrite fold_left_app. reflexivity. Qed.

Lemma elem_of_new_Set l x : x ∈ new_Set l <-> x ∈ l.
Proof.
  induction l as [|y l IH] using rev_ind.
  - reflexivity.
  - rewrite new_Set_snoc. unfold Set_add.
    destruct (decide (y ∈ new_Set l)) as [Hin|Hout];
      rewrite ?elem_of_app, ?list_elem_of_singleton, IH; [|tauto].
    split; [tauto|]. intros [?| ->]; [assumption|]. by apply IH.
Qed.

Lemma NoDup_new_Set l : NoDup (new_Set l).
Proof.
  induction l as [|y l IH] using rev_ind; [constructor|].
  rewrite new_Set_snoc. unfold Set_add.
  destruct (decide (y ∈ new_Set l)) as [Hin|Hout]; [exact IH|].
  apply NoDup_app. repeat split; [exact IH| |apply NoDup_singleton].
  intros z Hz ->%list_elem_of_singleton. contradiction.
Qed.

Lemma sublist_new_Set l : new_Set l `sublist_of` l.
Proof.
  induction l as [|y l IH] using rev_ind; [constructor|].
  rewrite new_Set_snoc. unfold Set_add.
  destruct (decide (y ∈ new_Set l)) as [Hin|Hout].
  - by apply sublist_inserts_r.
  - by apply sublist_app.
Qed.

Lemma first_occurrences_snoc l x :
  first_occurrences (l ++ [x])
  = first_occurrences l ++ (if decide (x ∈ l) then [] else [x]).
Proof.
  unfold first_occurrences. rewrite imap_app, concat_app. f_equal.
  - f_equal. apply imap_ext. intros i y Hi. cbn.
    rewrite take_app_le; [reflexivity|].
    apply lookup_lt_Some in Hi. lia.
  - cbn. rewrite Nat.add_0_r, take_app_length, app_nil_r. reflexivity.
Qed.

(** What the constructor of [Set] collects is the first occurrences. *)
Lemma new_Set_first_occurrences l : new_Set l = first_occurrences l.
Proof.
  induction l as [|y l IH] using rev_ind; [reflexivity|].
  rewrite new_Set_snoc, first_occurrences_snoc, <- IH. unfold Set_add.
  destruct (decide (y ∈ new_Set l)) as [Hin|Hout], (decide (y ∈ l)) as [Hin'|Hout'].
  - by rewrite app_nil_r.
  - apply (proj1 (elem_of_new_Set l y)) in Hin. contradiction.
  - apply (proj2 (elem_of_new_Set l y)) in Hin'. contradiction.
  - reflexivity.
Qed.

End Sets.

(** ** [Map] and [groupBy] *)

Section Grouping.
Context {T K : Type} `{EqDecision K}.
Implicit Types (h : heap T) (s : list T) (m : list (K * ref)) (keySelector : T -> K).

Lemma for_of_snoc {S} (a : list T) (x : T) (body : S -> T -> js T S) (st : S) h :
  for_of (a ++ [x]) body st h
  = match for_of a body st h with
    | (Normal st', h') => body st' x h'
    | (Throw e, h') => (Throw e, h')
    end.
Proof.
  revert st h. induction a as [|y a IH]; intros st h; cbn; unfold bind.
  - destruct (body st x h) as [[st1|e] h1]; reflexivity.
  - destruct (body st y h) as [[st1|e] h1]; [apply IH|reflexivity].
Qed.

Lemma Map_set_fresh m k v : k ∉ m.*1 -> Map_set m k v = m ++ [(k, v)].
Proof.
  induction m as [|[k' v'] m IH]; cbn; intros Hk; [reflexivity|].
  apply not_elem_of_cons in Hk as [Hne Hk].
  destruct (decide (k' = k)); [congruence|]. by rewrite IH.
Qed.

Lemma Map_get_snoc m k v : k ∉ m.*1 -> Map_get (m ++ [(k, v)]) k = Some v.
Proof.
  induction m as [|[k' v'] m IH]; cbn; intros Hk.
  - by destruct (decide (k = k)).
  - apply not_elem_of_cons in Hk as [Hne Hk].
    destruct (decide (k' = k)); [congruence|]. by apply IH.
Qed.

Lemma Map_get_lookup m i k r :
  NoDup m.*1 -> m !! i = Some (k, r) -> Map_get m k = Some r.
Proof.
  revert i. induction m as [|[k' v'] m IH]; intros i Hnd Hi; [done|].
  cbn in Hnd. apply NoDup_cons in Hnd as [Hk' Hnd].
  destruct i as [|i]; cbn in Hi |- *.
  - injection Hi as -> ->. by destruct (decide (k = k)).
  - destruct (decide (k' = k)) as [->|Hne]; [|by apply (IH i)].
    exfalso. apply Hk'. apply list_elem_of_fmap. exists (k, r). split; [reflexivity|].
    by apply (list_elem_of_lookup_2 _ i).
Qed.

Lemma Map_get_None m k : k ∉ m.*1 -> Map_get m k = None.
Proof.
  induction m as [|[k' v'] m IH]; cbn; intros Hk; [reflexivity|].
  apply not_elem_of_cons in Hk as [Hne Hk].
  destruct (decide (k' = k)); [congruence|]. by apply IH.
Qed.

Lemma elements_with_key_snoc keySelector s x k :
  elements_with_key keySelector (s ++ [x]) k
  = elements_with_key keySelector s k ++ (if decide (keySelector x = k) then [x] else []).
Proof.
  unfold elements_with_key. rewrite filter_elements_app. cbn.
  by destruct (decide (keySelector x = k)) as [->|Hne];
    [rewrite bool_decide_eq_true_2|rewrite bool_decide_eq_false_2].
Qed.

Lemma elements_with_key_absent keySelector s k :
  k ∉ keySelector <$> s -> elements_with_key keySelector s k = [].
Proof.
  intros Hk. apply filter_elements_none. intros x Hx.
  apply bool_decide_eq_false_2. intros <-. apply Hk.
  apply list_elem_of_fmap. by exists x.
Qed.

(** One turn of the loop keeps [groups_built]. *)
Lemma groupBy_step_built keySelector h0 s m h x :
  groups_built keySelector h0 s m h ->
  exists m' h',
    groupBy_step keySelector m x h = (Normal m', h') /\
    groups_built keySelector h0 (s ++ [x]) m' h'.
Proof.
  intros (Hkeys & Hrefs & ->).
  assert (NoDup m.*1) as Hnd by (rewrite Hkeys; apply NoDup_new_Set).
  assert (new_Set (keySelector <$> s ++ [x]) = Set_add m.*1 (keySelector x)) as Hnew
    by (rewrite fmap_app; change (keySelector <$> [x]) with [keySelector x];
        rewrite new_Set_snoc, Hkeys; reflexivity).
  unfold groupBy_step, Map_has. cbn zeta. unfold bind at 1.
  destruct (decide (keySelector x ∈ m.*1)) as [Hin|Hout].
  - rewrite bool_decide_eq_true_2 by done. cbn [negb]. unfold ret at 1.
    destruct (proj1 (list_elem_of_lookup _ _) Hin) as [i Hi].
    assert (m !! i = Some (keySelector x, length h0 + i)) as Hmi.
    { assert (m.*2 !! i = Some (length h0 + i)) as Hri.
      { rewrite Hrefs. apply lookup_seq. split; [reflexivity|].
        apply lookup_lt_Some in Hi. by rewrite length_fmap in Hi. }
      rewrite list_lookup_fmap in Hi. rewrite list_lookup_fmap in Hri.
      destruct (m !! i) as [[k r]|]; cbn in Hi, Hri; congruence. }
    rewrite (Map_get_lookup _ _ _ _ Hnd Hmi).
    unfold Array_push, bind, deref, store, ret.
    rewrite lookup_app_r by lia.
    replace (length h0 + i - length h0) with i by lia.
    rewrite list_lookup_fmap, Hi. cbn [fmap option_fmap option_map].
    rewrite insert_app_r.
    eexists _, _. split; [reflexivity|]. repeat split.
    + rewrite Hnew. unfold Set_add. by destruct (decide (keySelector x ∈ m.*1)).
    + exact Hrefs.
    + f_equal. apply list_eq. intros j.
      destruct (decide (j = i)) as [->|Hji].
      * rewrite list_lookup_insert_eq
          by (rewrite length_fmap; by apply lookup_lt_Some in Hi).
        rewrite list_lookup_fmap, Hi. cbn.
        rewrite elements_with_key_snoc. by destruct (decide (keySelector x = keySelector x)).
      * rewrite list_lookup_insert_ne by done.
        rewrite (list_lookup_fmap (elements_with_key keySelector s)),
          (list_lookup_fmap (elements_with_key keySelector (s ++ [x]))).
        destruct (m.*1 !! j) as [k|] eqn:Hj; [|reflexivity]. cbn.
        rewrite elements_with_key_snoc.
        destruct (decide (keySelector x = k)) as [<-|Hne]; [|by rewrite app_nil_r].
        exfalso. apply Hji. by apply (NoDup_lookup _ _ _ _ Hnd Hj Hi).
  - rewrite bool_decide_eq_false_2 by done. cbn [negb].
    unfold new_array at 1, bind at 1, ret at 1.
    rewrite (Map_set_fresh _ _ _ Hout), (Map_get_snoc _ _ _ Hout).
    unfold Array_push, bind, deref, store, ret.
    rewrite lookup_alloc_new, insert_alloc_new.
    eexists _, _. split; [reflexivity|]. repeat split.
    + rewrite fmap_app, Hnew. unfold Set_add.
      by destruct (decide (keySelector x ∈ m.*1)).
    + rewrite fmap_app, (length_app m), Hrefs, seq_app. cbn.
      rewrite length_app, !length_fmap. reflexivity.
    + rewrite <- app_assoc. f_equal. rewrite !fmap_app. cbn. f_equal.
      * apply list_fmap_ext. intros j k Hj.
        rewrite elements_with_key_snoc.
        destruct (decide (keySelector x = k)) as [<-|Hne]; [|by rewrite app_nil_r].
        exfalso. apply Hout. by apply (list_elem_of_lookup_2 _ j).
      * rewrite elements_with_key_snoc, elements_with_key_absent.
        -- by destruct (decide (keySelector x = keySelector x)).
        -- rewrite <- elem_of_new_Set, <- Hkeys. exact Hout.
Qed.

(** The loop of [groupBy] over all the elements. *)
Lemma for_of_groupBy_built keySelector h0 s :
  exists m h,
    for_of s (groupBy_step keySelector) [] h0 = (Normal m, h) /\
    groups_built keySelector h0 s m h.
Proof.
  induction s as [|x s IH] using rev_ind.
  - exists [], h0. split; [reflexivity|].
    repeat split. cbn. by rewrite app_nil_r.
  - destruct IH as (m & h & Hrun & Hbuilt).
    rewrite for_of_snoc, Hrun. by apply groupBy_step_built.
Qed.

Lemma Map_get_Some_lookup m k r :
  Map_get m k = Some r -> exists i, m !! i = Some (k, r).
Proof.
  induction m as [|[k' v'] m IH]; cbn; [done|].
  destruct (decide (k' = k)) as [->|Hne].
  - intros [= ->]. by exists 0.
  - intros Hget. destruct (IH Hget) as [i Hi]. by exists (S i).
Qed.

Lemma Map_get_is_Some m k : k ∈ m.*1 -> is_Some (Map_get m k).
Proof.
  induction m as [|[k' v'] m IH]; cbn; [by intros ?%elem_of_nil|].
  intros Hk. destruct (decide (k' = k)) as [|Hne]; [by eexists|].
  apply elem_of_cons in Hk as [->|Hk]; [congruence|by apply IH].
Qed.

(** In a built state, the i-th entry refers to the group of its key. *)
Lemma groups_built_lookup keySelector h0 s m h i k r :
  groups_built keySelector h0 s m h ->
  m !! i = Some (k, r) ->
  h !! r = Some (elements_with_key keySelector s k).
Proof.
  intros (Hkeys & Hrefs & ->) Hi.
  assert (m.*2 !! i = Some r) as Hr by (by rewrite list_lookup_fmap, Hi).
  rewrite Hrefs in Hr. apply lookup_seq in Hr as [-> Hlt].
  rewrite lookup_app_r by lia.
  replace (length h0 + i - length h0) with i by lia.
  rewrite list_lookup_fmap, list_lookup_fmap, Hi. reflexivity.
Qed.

Lemma groups_built_grows keySelector h0 s m h :
  groups_built keySelector h0 s m h -> exists extra, h = h0 ++ extra.
Proof. intros (_ & _ & ->). eauto. Qed.

(** Reading the entries of a map whose references are all arrays. *)
Lemma Map_entries_spec m (groups : list (list T)) h :
  Forall2 (fun r group => h !! r = Some group) m.*2 groups ->
  Map_entries m h = (Normal (zip m.*1 groups), h).
Proof.
  revert groups. induction m as [|[k r] m IH]; intros groups Hall; cbn in *.
  - by apply Forall2_nil_inv_l in Hall as ->.
  - apply Forall2_cons_inv_l in Hall as (group & groups' & Hr & Hall & ->).
    unfold bind, deref. rewrite Hr, (IH _ Hall). reflexivity.
Qed.

Lemma Map_entries_built keySelector h0 s m h :
  groups_built keySelector h0 s m h ->
  Map_entries m h
  = (Normal ((fun k => (k, elements_with_key keySelector s k))
               <$> new_Set (keySelector <$> s)), h).
Proof.
  intros Hbuilt.
  rewrite (Map_entries_spec m (elements_with_key keySelector s <$> m.*1)).
  - destruct Hbuilt as (<- & _ & _). f_equal. f_equal.
    generalize (m.*1). intros ks. induction ks as [|k ks IH]; cbn; congruence.
  - apply Forall2_same_length_lookup. split; [by rewrite !length_fmap|].
    intros i r group Hr Hg.
    rewrite list_lookup_fmap in Hr. rewrite !list_lookup_fmap in Hg.
    destruct (m !! i) as [[k r']|] eqn:Hi; cbn in Hr, Hg; [|done].
    injection Hr as ->. injection Hg as <-.
    by apply (groups_built_lookup _ _ _ _ _ _ _ _ Hbuilt Hi).
Qed.

End Grouping.

(** ** Every call, uniformly *)

Section Calls.
Context {T : Type} `{EqDecision T} {engine : Engine}.
Implicit Types (h : heap T) (s : list T) (this : LinqService).

Lemma distinct_spec this h s :
  h !! data this = Some s ->
  distinct this h = (Normal (length h), h ++ [new_Set s]).
Proof. intros H0. run H0. reflexivity. Qed.

Lemma groupBy_spec {K} `{EqDecision K} this (keySelector : T -> K) h s :
  h !! data this = Some s ->
  exists m h',
    groupBy this keySelector h = (Normal m, h') /\
    groups_built keySelector h s m h'.
Proof.
  intros H0. unfold groupBy, bind, deref. rewrite H0.
  apply for_of_groupBy_built.
Qed.

Lemma sum_spec this selector h s :
  h !! data this = Some s ->
  sum this selector h
  = (Normal (Array_reduce PrimFloat.add (map_elements selector s) PrimFloat.zero), h).
Proof. intros H0. run H0. by destruct s. Qed.

Lemma average_spec this selector h s :
  h !! data this = Some s -> s <> [] ->
  average this selector h
  = (Normal (PrimFloat.div
               (Array_reduce PrimFloat.add (map_elements selector s) PrimFloat.zero)
               (number_of_length (length s))), h).
Proof.
  intros H0 Hs. run H0. destruct s as [|x s]; [done|]. cbn [length Nat.eqb].
  rewrite H0. cbn beta iota. by rewrite length_map_elements.
Qed.

(** The completion of a call is determined by the call and by the elements
    of the wrapped array; the store it leaves is the one it found, with new
    arrays behind it.  A call completes abruptly in two cases only: one of
    the four methods with a [throw], on the empty array; one of the two
    methods that spread the selected values into a call, on an array longer
    than the engine accepts arguments. *)
Lemma invoke_completion (i : invocation T) s :
  exists c : completion (observation i),
    (forall this h, h !! data this = Some s ->
       exists extra, invoke i this h = (c, h ++ extra)) /\
    ((c = Throw InvalidOperationException /\ requires_elements i = true /\ s = []) \/
     (c = Throw RangeError /\ spreads_elements i = true /\
      (max_arguments < N.of_nat (length s))%N) \/
     ((exists v, c = Normal v) /\ (requires_elements i = false \/ s <> []) /\
      (spreads_elements i = false \/ (N.of_nat (length s) <= max_arguments)%N))).
Proof.
  destruct i; cbn [observation requires_elements spreads_elements].
  - (* where *)
    exists (Normal (filter_elements predicate s)). split; [|right; right; split; [by eexists|split; by left]].
    intros this h H0. exists [filter_elements predicate s].
    unfold invoke, bind. rewrite (where_spec _ _ _ _ H0).
    unfold deref. by rewrite lookup_alloc_new.
  - (* select *)
    exists (Normal (map_elements selector s)). split; [|right; right; split; [by eexists|split; by left]].
    intros this h H0. exists []. rewrite app_nil_r. by apply select_spec.
  - (* orderBy *)
    exists (Normal (sort_elements (compare_ascending keySelector) s)).
    split; [|right; right; split; [by eexists|split; by left]].
    intros this h H0. eexists [_].
    unfold invoke, bind. rewrite (orderBy_spec _ _ _ _ H0).
    unfold deref. by rewrite lookup_alloc_new.
  - (* orderByDescending *)
    exists (Normal (sort_elements (compare_descending keySelector) s)).
    split; [|right; right; split; [by eexists|split; by left]].
    intros this h H0. eexists [_].
    unfold invoke, bind. rewrite (orderByDescending_spec _ _ _ _ H0).
    unfold deref. by rewrite lookup_alloc_new.
  - (* first *)
    destruct s as [|x s].
    + exists (Throw InvalidOperationException). split; [|left; eauto].
      intros this h H0. exists []. rewrite app_nil_r. run H0. reflexivity.
    + exists (Normal x). split; [|right; right; split; [by eexists|split; [by right|by left]]].
      intros this h H0. exists []. rewrite app_nil_r. run H0. reflexivity.
  - (* firstOrDefault *)
    exists (Normal (match s with x :: _ => x | [] => defaultValue end)).
    split; [|right; right; split; [by eexists|split; by left]].
    intros this h H0. exists []. rewrite app_nil_r. run H0. by destruct s.
  - (* count *)
    exists (Normal (length s)). split; [|right; right; split; [by eexists|split; by left]].
    intros this h H0. exists []. rewrite app_nil_r. run H0. reflexivity.
  - (* any *)
    exists (Normal (some_element predicate s)). split; [|right; right; split; [by eexists|split; by left]].
    intros this h H0. exists []. rewrite app_nil_r. run H0. reflexivity.
  - (* all *)
    exists (Normal (every_element predicate s)). split; [|right; right; split; [by eexists|split; by left]].
    intros this h H0. exists []. rewrite app_nil_r. run H0. reflexivity.
  - (* distinct *)
    exists (Normal (new_Set s)). split; [|right; right; split; [by eexists|split; by left]].
    intros this h H0. exists [new_Set s].
    unfold invoke, bind. rewrite (distinct_spec _ _ _ H0).
    unfold deref. by rewrite lookup_alloc_new.
  - (* groupBy *)
    exists (Normal ((fun k => (k, elements_with_key keySelector s k))
                      <$> new_Set (keySelector <$> s))).
    split; [|right; right; split; [by eexists|split; by left]].
    intros this h H0.
    destruct (groupBy_spec this keySelector h s H0) as (m & h' & Hrun & Hbuilt).
    destruct (groups_built_grows _ _ _ _ _ Hbuilt) as [extra Hextra].
    exists extra. unfold invoke, bind. rewrite Hrun, <- Hextra.
    exact (Map_entries_built _ _ _ _ _ Hbuilt).
  - (* average *)
    destruct s as [|x s].
    + exists (Throw InvalidOperationException). split; [|left; eauto].
      intros this h H0. exists []. rewrite app_nil_r. run H0. reflexivity.
    + eexists (Normal _). split; [|right; right; split; [by eexists|split; [by right|by left]]].
      intros this h H0. exists []. rewrite app_nil_r.
      by apply average_spec.
  - (* max *)
    destruct s as [|x s].
    + exists (Throw InvalidOperationException). split; [|left; eauto].
      intros this h H0. exists []. rewrite app_nil_r. run H0. reflexivity.
    + destruct (N.of_nat (length (x :: s)) <=? max_arguments)%N eqn:Hfit.
      * exists (Normal (Math_max (map_elements selector (x :: s)))). split.
        -- intros this h H0. exists []. rewrite app_nil_r. run H0.
           cbn [length Nat.eqb]. rewrite H0. cbn beta iota.
           unfold call_spread. by rewrite length_map_elements, Hfit.
        -- right; right. split; [by eexists|]. split; [by right|].
           right. by apply N.leb_le.
      * exists (Throw RangeError). split.
        -- intros this h H0. exists []. rewrite app_nil_r. run H0.
           cbn [length Nat.eqb]. rewrite H0. cbn beta iota.
           unfold call_spread. by rewrite length_map_elements, Hfit.
        -- right; left. split; [reflexivity|]. split; [reflexivity|].
           by apply N.leb_gt.
  - (* min *)
    destruct s as [|x s].
    + exists (Throw InvalidOperationException). split; [|left; eauto].
      intros this h H0. exists []. rewrite app_nil_r. run H0. reflexivity.
    + destruct (N.of_nat (length (x :: s)) <=? max_arguments)%N eqn:Hfit.
      * exists (Normal (Math_min (map_elements selector (x :: s)))). split.
        -- intros this h H0. exists []. rewrite app_nil_r. run H0.
           cbn [length Nat.eqb]. rewrite H0. cbn beta iota.
           unfold call_spread. by rewrite length_map_elements, Hfit.
        -- right; right. split; [by eexists|]. split; [by right|].
           right. by apply N.leb_le.
      * exists (Throw RangeError). split.
        -- intros this h H0. exists []. rewrite app_nil_r. run H0.
           cbn [length Nat.eqb]. rewrite H0. cbn beta iota.
           unfold call_spread. by rewrite length_map_elements, Hfit.
        -- right; left. split; [reflexivity|]. split; [reflexivity|].
           by apply N.leb_gt.
  - (* sum *)
    eexists (Normal _). split; [|right; right; split; [by eexists|split; by left]].
    intros this h H0. exists []. rewrite app_nil_r. by apply sum_spec.
Qed.

End Calls.

(** ** Predicates and sums *)

Section Aggregates.
Context {T : Type}.
Implicit Types (s : list T) (p : T -> bool).

Lemma every_element_true p s :
  every_element p s = true <-> forall x, x ∈ s -> p x = true.
Proof.
  induction s as [|y s IH]; cbn.
  - split; [intros _ x Hx; by apply elem_of_nil in Hx|done].
  - destruct (p y) eqn:Hy.
    + rewrite IH. split.
      * intros Hall x [->|Hx]%elem_of_cons; [done|by apply Hall].
      * intros Hall x Hx. apply Hall. by right.
    + split; [done|]. intros Hall. rewrite <- Hy. apply Hall. by left.
Qed.

Lemma some_element_true p s :
  some_element p s = true <-> exists x, x ∈ s /\ p x = true.
Proof.
  induction s as [|y s IH]; cbn.
  - split; [done|]. intros (x & Hx & _). by apply elem_of_nil in Hx.
  - destruct (p y) eqn:Hy.
    + split; [|done]. intros _. exists y. split; [by left|done].
    + rewrite IH. split.
      * intros (x & Hx & Hp). exists x. split; [by right|done].
      * intros (x & [->|Hx]%elem_of_cons & Hp); [congruence|by exists x].
Qed.

Lemma sublist_filter_elements p s : filter_elements p s `sublist_of` s.
Proof.
  induction s as [|y s IH]; cbn; [constructor|].
  destruct (p y); by constructor.
Qed.

Lemma reduce_add_selected (selector : T -> number) s (initial : number) :
  Array_reduce PrimFloat.add (map_elements selector s) initial
  = fold_left (fun acc x => PrimFloat.add acc (selector x)) s initial.
Proof.
  revert initial. induction s as [|y s IH]; intros initial; [reflexivity|].
  cbn. apply IH.
Qed.

End Aggregates.

(** ** The integers as keys *)

Lemma Z_total : TotalOrderKey Z.
Proof.
  split; unfold js_lt, Z_RelOps.
  - apply Z.ltb_irrefl.
  - intros a b c Hab%Z.ltb_lt Hbc%Z.ltb_lt. apply Z.ltb_lt. lia.
  - intros a b Hab%Z.ltb_ge Hba%Z.ltb_ge. lia.
Qed.

(** ** The test suite

    The expectations of the repository's tests, evaluated on the model. *)

Section Tests.
#[local] Existing Instance node.

Example test_where :
  invoke (Where (fun n => 2 <? n)%Z) (from 0) [upto5]
  = (Normal [3; 4; 5]%Z, [upto5; [3; 4; 5]%Z]).
Proof. reflexivity. Qed.

Example test_select :
  invoke (Select Z (fun n => n * 2)%Z) (from 0) [small] = (Normal [2; 4; 6]%Z, [small]).
Proof. reflexivity. Qed.

Example test_orderBy :
  (invoke (OrderBy Z _ age) (from 0) [people]).1
  = Normal [ {| address := 1; age := 20 |};
             {| address := 2; age := 25 |};
             {| address := 0; age := 30 |} ].
Proof. reflexivity. Qed.

Example test_orderByDescending :
  (invoke (OrderByDescending Z _ age) (from 0) [people]).1
  = Normal [ {| address := 0; age := 30 |};
             {| address := 2; age := 25 |};
             {| address := 1; age := 20 |} ].
Proof. reflexivity. Qed.

Example test_first : invoke First (from 0) [small] = (Normal 1%Z, [small]).
Proof. reflexivity. Qed.

Example test_first_empty :
  invoke (@First Z) (from 0) [[]] = (Throw (Error "InvalidOperationException"), [[]]).
Proof. reflexivity. Qed.

Example test_firstOrDefault :
  invoke (FirstOrDefault 0%Z) (from 0) [small] = (Normal 1%Z, [small]) /\
  invoke (FirstOrDefault 0%Z) (from 0) [[]] = (Normal 0%Z, [[]]).
Proof. split; reflexivity. Qed.

Example test_count : invoke Count (from 0) [small] = (Normal 3, [small]).
Proof. reflexivity. Qed.

Example test_any :
  invoke (Any (fun n => 2 <? n)%Z) (from 0) [small] = (Normal true, [small]) /\
  invoke (Any (fun n => 3 <? n)%Z) (from 0) [small] = (Normal false, [small]).
Proof. split; reflexivity. Qed.

Example test_all :
  invoke (All Z.even) (from 0) [[2; 4; 6]%Z] = (Normal true, [[2; 4; 6]%Z]) /\
  invoke (All Z.even) (from 0) [small] = (Normal false, [small]).
Proof. split; reflexivity. Qed.

Example test_distinct :
  (invoke Distinct (from 0) [[1; 2; 2; 3; 3; 3]%Z]).1 = Normal [1; 2; 3]%Z /\
  (invoke (@Distinct Z) (from 0) [[]]).1 = Normal [].
Proof. split; reflexivity. Qed.

Example test_groupBy :
  (invoke (GroupBy Z _ age) (from 0) [items]).1
  = Normal [ (30%Z, [ {| address := 0; age := 30 |}; {| address := 2; age := 30 |} ]);
             (20%Z, [ {| address := 1; age := 20 |} ]) ].
Proof. reflexivity. Qed.

Example test_average :
  average (from 0) (fun n => n) [numbers] = (Normal 3%float, [numbers]) /\
  average (from 0) (fun n : number => n) [[]] = (Throw InvalidOperationException, [[]]).
Proof. split; vm_compute; reflexivity. Qed.

Example test_max :
  max (from 0) (fun n => n) [numbers] = (Normal 5%float, [numbers]) /\
  max (from 0) (fun n : number => n) [[]] = (Throw InvalidOperationException, [[]]).
Proof. split; vm_compute; reflexivity. Qed.

Example test_min :
  min (from 0) (fun n => n) [numbers] = (Normal 1%float, [numbers]) /\
  min (from 0) (fun n : number => n) [[]] = (Throw InvalidOperationException, [[]]).
Proof. split; vm_compute; reflexivity. Qed.

Example test_sum :
  sum (from 0) (fun n => n) [numbers] = (Normal 15%float, [numbers]) /\
  sum (from 0) (fun n : number => n) [[]] = (Normal 0%float, [[]]).
Proof. split; vm_compute; reflexivity. Qed.

(** Sorting through the wrapped reference itself would be seen: the store
    tells a sort in place from a sort of a copy. *)
Example sort_in_place_is_visible :
  Array_sort 0 (compare_ascending (fun n : Z => n)) [[3; 1; 2]%Z]
  = (Normal 0, [[1; 2; 3]%Z]) /\
  orderBy (from 0) (fun n : Z => n) [[3; 1; 2]%Z]
  = (Normal 1, [[3; 1; 2]%Z; [1; 2; 3]%Z]).
Proof. split; reflexivity. Qed.

(** Ties are not reversed: the descending result is not the ascending one
    read backwards. *)
Example descending_keeps_ties :
  (invoke (OrderBy Z _ age) (from 0) [items]).1
  = Normal [ {| address := 1; age := 20 |};
             {| address := 0; age := 30 |};
             {| address := 2; age := 30 |} ] /\
  (invoke (OrderByDescending Z _ age) (from 0) [items]).1
  = Normal [ {| address := 0; age := 30 |};
             {| address := 2; age := 30 |};
             {| address := 1; age := 20 |} ].
Proof. split; reflexivity. Qed.

End Tests.

(** * The claims *)





(** C2. For every sequence and every key selector into a totally ordered key
    type, [orderBy(keySelector)] returns a new array that is a permutation
    of the sequence, sorted ascending by the derived key (no element stands
    before one of a smaller key), and stable: for every key, the elements of
    that key stand in the result in their original relative order. *)
Theorem C2_orderBy_sorted_stable {T K} `{RelOps K} (total : TotalOrderKey K)
    (this : LinqService) (keySelector : T -> K) (h : heap T) (s : list T) :
  h !! data this = Some s ->
  exists r h' sorted,
    orderBy this keySelector h = (Normal r, h') /\
    h' !! r = Some sorted /\
    sorted ≡ₚ s /\
    StronglySorted (in_order keySelector) sorted /\
    (forall k, filter_elements (fun x => same_key (keySelector x) k) sorted
               = filter_elements (fun x => same_key (keySelector x) k) s).
Proof.
  intros H0. eexists _, _, _. split; [by apply orderBy_spec|].
  split; [apply lookup_alloc_new|]. split; [|split].
  - apply sort_elements_perm.
  - apply ascending_sorted.
  - intros k. apply ascending_stable.
Qed.

Lemma C2_orderBy_sorted_stable_witness :
  exists r h' sorted,
    orderBy (from 0) (fun x : Z => x) [[3; 1; 2]%Z] = (Normal r, h') /\
    h' !! r = Some sorted /\
    sorted ≡ₚ [3; 1; 2]%Z /\
    StronglySorted (in_order (fun x : Z => x)) sorted /\
    (forall k, filter_elements (fun x => same_key x k) sorted
               = filter_elements (fun x => same_key x k) [3; 1; 2]%Z).
Proof.
  apply (C2_orderBy_sorted_stable Z_total (from 0) (fun x : Z => x) [[3; 1; 2]%Z]).
  reflexivity.
Defined.

(** C3. For every sequence and every key selector into a totally ordered key
    type, [orderByDescending(keySelector)] returns a permutation of the
    sequence sorted descending by the derived key (no element stands before
    one of a greater key), stable for equal keys.  Its keys, in order, are
    those of [orderBy] with the same selector read backwards, while in both
    results the elements of one key keep their original relative order:
    ties are not reversed. *)
Theorem C3_orderByDescending_reverse_keys {T K} `{RelOps K} (total : TotalOrderKey K)
    (this : LinqService) (keySelector : T -> K) (h : heap T) (s : list T) :
  h !! data this = Some s ->
  exists rd hd descending ra ha ascending,
    orderByDescending this keySelector h = (Normal rd, hd) /\
    hd !! rd = Some descending /\
    orderBy this keySelector h = (Normal ra, ha) /\
    ha !! ra = Some ascending /\
    descending ≡ₚ s /\
    StronglySorted (in_reverse_order keySelector) descending /\
    keySelector <$> descending = reverse (keySelector <$> ascending) /\
    (forall k, filter_elements (fun x => same_key (keySelector x) k) descending
               = filter_elements (fun x => same_key (keySelector x) k) s) /\
    (forall k, filter_elements (fun x => same_key (keySelector x) k) ascending
               = filter_elements (fun x => same_key (keySelector x) k) s).
Proof.
  intros H0. eexists _, _, _, _, _, _.
  split; [by apply orderByDescending_spec|].
  split; [apply lookup_alloc_new|].
  split; [by apply orderBy_spec|].
  split; [apply lookup_alloc_new|].
  split; [apply sort_elements_perm|].
  split; [apply descending_sorted|].
  split; [apply descending_keys_reverse|].
  split; intros k; [apply descending_stable|apply ascending_stable].
Qed.

Lemma C3_orderByDescending_reverse_keys_witness :
  exists rd hd descending ra ha ascending,
    orderByDescending (from 0) age [items] = (Normal rd, hd) /\
    hd !! rd = Some descending /\
    orderBy (from 0) age [items] = (Normal ra, ha) /\
    ha !! ra = Some ascending /\
    descending ≡ₚ items /\
    StronglySorted (in_reverse_order age) descending /\
    age <$> descending = reverse (age <$> ascending) /\
    (forall k, filter_elements (fun x => same_key (age x) k) descending
               = filter_elements (fun x => same_key (age x) k) items) /\
    (forall k, filter_elements (fun x => same_key (age x) k) ascending
               = filter_elements (fun x => same_key (age x) k) items).
Proof.
  apply (C3_orderByDescending_reverse_keys Z_total (from 0) age [items]).
  reflexivity.
Defined.

(** C4. No method changes the wrapped array: after any call it has the
    elements it had, and the same call made again completes the same way
    (the same elements returned, or the same error thrown), again leaving
    the array as it was.  [orderBy] and [orderByDescending] sort a copy: the
    array they return is another object than the wrapped one. *)
Theorem C4_no_mutation {T} `{EqDecision T} `{Engine}
    (i : invocation T) (this : LinqService) (h : heap T) (s : list T) :
  h !! data this = Some s ->
  (exists c h1 h2,
     invoke i this h = (c, h1) /\ h1 !! data this = Some s /\
     invoke i this h1 = (c, h2) /\ h2 !! data this = Some s) /\
  (forall K (ops : RelOps K) (keySelector : T -> K),
     (exists r h', orderBy this keySelector h = (Normal r, h') /\
                   r <> data this /\ h' !! data this = Some s) /\
     (exists r h', orderByDescending this keySelector h = (Normal r, h') /\
                   r <> data this /\ h' !! data this = Some s)).
Proof.
  intros H0. split.
  - destruct (invoke_completion i s) as (c & Hrun & _).
    destruct (Hrun this h H0) as [extra1 Hinv1].
    pose proof (lookup_grow_old _ extra1 _ _ H0) as H1.
    destruct (Hrun this _ H1) as [extra2 Hinv2].
    exists c, (h ++ extra1), ((h ++ extra1) ++ extra2).
    repeat split; try assumption. by apply lookup_grow_old.
  - intros K ops keySelector.
    pose proof (lookup_lt_Some _ _ _ H0) as Hlt.
    split; eexists _, _;
      (split; [by (apply orderBy_spec || apply orderByDescending_spec)|]);
      (split; [lia|by apply lookup_alloc_old]).
Qed.

Lemma C4_no_mutation_witness :
  (exists c h1 h2,
     invoke (engine := node) (OrderBy Z Z_RelOps (fun x : Z => x)) (from 0)
       [[3; 1; 2]%Z] = (c, h1) /\
     h1 !! 0 = Some [3; 1; 2]%Z /\
     invoke (engine := node) (OrderBy Z Z_RelOps (fun x : Z => x)) (from 0) h1 = (c, h2) /\
     h2 !! 0 = Some [3; 1; 2]%Z) /\
  (forall K (ops : RelOps K) (keySelector : Z -> K),
     (exists r h', orderBy (from 0) keySelector [[3; 1; 2]%Z] = (Normal r, h') /\
                   r <> 0 /\ h' !! 0 = Some [3; 1; 2]%Z) /\
     (exists r h', orderByDescending (from 0) keySelector [[3; 1; 2]%Z] = (Normal r, h') /\
                   r <> 0 /\ h' !! 0 = Some [3; 1; 2]%Z)).
Proof.
  apply (@C4_no_mutation Z _ node (OrderBy Z Z_RelOps (fun x : Z => x)) (from 0)
           [[3; 1; 2]%Z]).
  reflexivity.
Defined.

(** C5. For every sequence and key selector, [groupBy(keySelector)] returns
    a map whose keys are the keys that occur, each once, in the order in
    which they are first met; the value under a key is an array holding
    exactly the elements whose derived key is that key, in their order in
    the sequence; for the empty sequence the map is empty. *)
Theorem C5_groupBy_groups {T K} `{EqDecision K}
    (this : LinqService) (keySelector : T -> K) (h : heap T) (s : list T) :
  h !! data this = Some s ->
  exists m h',
    groupBy this keySelector h = (Normal m, h') /\
    m.*1 = first_occurrences (keySelector <$> s) /\
    (forall k, k ∈ m.*1 <-> exists x, x ∈ s /\ keySelector x = k) /\
    (forall k, k ∈ m.*1 ->
       exists r, Map_get m k = Some r /\
                 h' !! r = Some (elements_with_key keySelector s k)) /\
    (forall k, k ∉ m.*1 -> Map_get m k = None) /\
    (s = [] -> m = []).
Proof.
  intros H0.
  destruct (groupBy_spec this keySelector h s H0) as (m & h' & Hrun & Hbuilt).
  exists m, h'. split; [exact Hrun|].
  pose proof Hbuilt as (Hkeys & _ & _).
  split; [by rewrite Hkeys, new_Set_first_occurrences|].
  split; [|split; [|split]].
  - intros k. rewrite Hkeys, elem_of_new_Set, list_elem_of_fmap.
    split; intros (x & ? & ?); by exists x.
  - intros k Hk. destruct (Map_get_is_Some _ _ Hk) as [r Hr].
    exists r. split; [exact Hr|].
    destruct (Map_get_Some_lookup _ _ _ Hr) as [i Hi].
    by apply (groups_built_lookup _ _ _ _ _ _ _ _ Hbuilt Hi).
  - apply Map_get_None.
  - intros ->. cbn in Hkeys. by apply fmap_nil_inv in Hkeys.
Qed.

Lemma C5_groupBy_groups_witness :
  exists m h',
    groupBy (from 0) age [items] = (Normal m, h') /\
    m.*1 = first_occurrences (age <$> items) /\
    (forall k, k ∈ m.*1 <-> exists x, x ∈ items /\ age x = k) /\
    (forall k, k ∈ m.*1 ->
       exists r, Map_get m k = Some r /\
                 h' !! r = Some (elements_with_key age items k)) /\
    (forall k, k ∉ m.*1 -> Map_get m k = None) /\
    (items = [] -> m = []).
Proof. apply (C5_groupBy_groups (from 0) age [items]). reflexivity. Defined.

(** C6, as the code has it.  For every sequence, [distinct()] returns a new
    array with the first occurrences of the sequence: a subsequence in which
    every value of the sequence has exactly one representative, two elements
    being the same value when SameValueZero says so (primitives by value,
    objects by identity); later duplicates are dropped and the empty
    sequence gives the empty array. *)
Theorem C6_distinct_first_occurrences {T} `{EqDecision T}
    (this : LinqService) (h : heap T) (s : list T) :
  h !! data this = Some s ->
  exists r h' d,
    distinct this h = (Normal r, h') /\
    h' !! r = Some d /\
    d = first_occurrences s /\
    one_representative_per_value (fun x y => bool_decide (x = y)) s d /\
    (s = [] -> d = []).
Proof.
  intros H0. exists (length h), (h ++ [new_Set s]), (new_Set s).
  split; [by apply distinct_spec|]. split; [apply lookup_alloc_new|].
  split; [apply new_Set_first_occurrences|]. split; [|by intros ->].
  split; [apply sublist_new_Set|]. split.
  - intros x Hx. exists x. split; [by apply elem_of_new_Set|].
    by apply bool_decide_eq_true_2.
  - intros i j x y Hi Hj Hxy%bool_decide_eq_true_1. subst y.
    by apply (NoDup_lookup _ _ _ _ (NoDup_new_Set s) Hi Hj).
Qed.

Lemma C6_distinct_first_occurrences_witness :
  exists r h' d,
    distinct (from 0) [[1; 2; 2; 3; 3; 3]%Z] = (Normal r, h') /\
    h' !! r = Some d /\
    d = first_occurrences [1; 2; 2; 3; 3; 3]%Z /\
    one_representative_per_value (fun x y => bool_decide (x = y))
      [1; 2; 2; 3; 3; 3]%Z d /\
    ([1; 2; 2; 3; 3; 3]%Z = [] -> d = []).
Proof.
  apply (C6_distinct_first_occurrences (from 0) [[1; 2; 2; 3; 3; 3]%Z]).
  reflexivity.
Defined.

(** C6, as stated, fails when "the same value" is read as equality of
    contents: of the two objects [{ age: 30 }] among [items], equal for
    [toEqual], [distinct()] keeps both. *)
Lemma C6_distinct_keeps_equal_objects :
  distinct (from 0) [items] = (Normal 1, [items; items]) /\
  ~ one_representative_per_value toEqual items items.
Proof.
  split; [reflexivity|].
  intros (_ & _ & Hone).
  specialize (Hone 0 2 _ _ eq_refl eq_refl eq_refl). discriminate.
Qed.

(** C7. For every sequence [s] and predicate [p], [where(p)] returns a new
    array that is a subsequence of [s] in the same relative order; every
    element of it satisfies [p], and every element of [s] that is not in it
    fails [p]. *)
Theorem C7_where_subsequence {T}
    (this : LinqService) (p : T -> bool) (h : heap T) (s : list T) :
  h !! data this = Some s ->
  exists r h' d,
    where_ this p h = (Normal r, h') /\
    h' !! r = Some d /\
    d `sublist_of` s /\
    (forall x, x ∈ d -> p x = true) /\
    (forall x, x ∈ s -> x ∉ d -> p x = false).
Proof.
  intros H0. eexists _, _, _. split; [by apply where_spec|].
  split; [apply lookup_alloc_new|]. split; [apply sublist_filter_elements|].
  split.
  - by intros x [_ Hp]%elem_of_filter_elements.
  - intros x Hx Hout. apply not_true_is_false. intros Hp.
    apply Hout. by apply elem_of_filter_elements.
Qed.

Lemma C7_where_subsequence_witness :
  exists r h' d,
    where_ (from 0) (fun n => 2 <? n)%Z [[1; 2; 3; 4; 5]%Z] = (Normal r, h') /\
    h' !! r = Some d /\
    d `sublist_of` [1; 2; 3; 4; 5]%Z /\
    (forall x, x ∈ d -> (2 <? x)%Z = true) /\
    (forall x, x ∈ [1; 2; 3; 4; 5]%Z -> x ∉ d -> (2 <? x)%Z = false).
Proof.
  apply (C7_where_subsequence (from 0) (fun n => 2 <? n)%Z [[1; 2; 3; 4; 5]%Z]).
  reflexivity.
Defined.

(** C8. For every predicate, [all(predicate)] is true exactly when every
    element satisfies the predicate and [any(predicate)] is true exactly
    when some element does; on the empty sequence [all] is true and [any]
    is false. *)
Theorem C8_any_all {T}
    (this : LinqService) (predicate : T -> bool) (h : heap T) (s : list T) :
  h !! data this = Some s ->
  exists every some,
    all this predicate h = (Normal every, h) /\
    any this predicate h = (Normal some, h) /\
    (every = true <-> forall x, x ∈ s -> predicate x = true) /\
    (some = true <-> exists x, x ∈ s /\ predicate x = true) /\
    (s = [] -> every = true /\ some = false).
Proof.
  intros H0. exists (every_element predicate s), (some_element predicate s).
  split; [run H0; reflexivity|]. split; [run H0; reflexivity|].
  split; [apply every_element_true|]. split; [apply some_element_true|].
  by intros ->.
Qed.

Lemma C8_any_all_witness :
  exists every some,
    all (from 0) (fun n => 2 <? n)%Z [[]] = (Normal every, [[]]) /\
    any (from 0) (fun n => 2 <? n)%Z [[]] = (Normal some, [[]]) /\
    (every = true <-> forall x, x ∈ @nil Z -> (2 <? x)%Z = true) /\
    (some = true <-> exists x, x ∈ @nil Z /\ (2 <? x)%Z = true) /\
    (@nil Z = [] -> every = true /\ some = false).
Proof. apply (C8_any_all (from 0) (fun n => 2 <? n)%Z [[]]). reflexivity. Defined.

(** C9. For every sequence and numeric selector, [sum(selector)] returns
    normally, with the sum of the selected values of all the elements
    (added up from 0 in the order of the sequence); on the empty sequence
    this is 0. *)
Theorem C9_sum_of_selected {T}
    (this : LinqService) (selector : T -> number) (h : heap T) (s : list T) :
  h !! data this = Some s ->
  sum this selector h = (Normal (sum_of_selected selector s), h) /\
  (s = [] -> sum_of_selected selector s = PrimFloat.zero) /\
  (forall s' x, sum_of_selected selector (s' ++ [x])
                = PrimFloat.add (sum_of_selected selector s') (selector x)).
Proof.
  intros H0. split; [|split].
  - rewrite (sum_spec _ _ _ _ H0). unfold sum_of_selected.
    by rewrite reduce_add_selected.
  - by intros ->.
  - intros s' x. unfold sum_of_selected. by rewrite fold_left_app.
Qed.

Lemma C9_sum_of_selected_witness :
  sum (from 0) (fun n => n) [numbers] = (Normal (sum_of_selected (fun n => n) numbers), [numbers]) /\
  (numbers = [] -> sum_of_selected (fun n => n) numbers = PrimFloat.zero) /\
  (forall s' x, sum_of_selected (fun n : number => n) (s' ++ [x])
                = PrimFloat.add (sum_of_selected (fun n => n) s') x).
Proof. apply (C9_sum_of_selected (from 0) (fun n => n) [numbers]). reflexivity. Defined.

(** C10, as the code has it.  For every non-empty sequence and numeric
    selector, [average(selector)] is [sum(selector)] divided by [count()],
    in binary64. *)
Theorem C10_average_sum_over_count {T}
    (this : LinqService) (selector : T -> number) (h : heap T) (s : list T) :
  h !! data this = Some s ->
  s <> [] ->
  exists a t n,
    average this selector h = (Normal a, h) /\
    sum this selector h = (Normal t, h) /\
    count this h = (Normal n, h) /\
    a = PrimFloat.div t (number_of_length n).
Proof.
  intros H0 Hs. eexists _, _, (length s).
  split; [by apply average_spec|]. split; [by apply sum_spec|].
  split; [run H0; reflexivity|reflexivity].
Qed.

Lemma C10_average_sum_over_count_witness :
  exists a t n,
    average (from 0) (fun n => n) [numbers] = (Normal a, [numbers]) /\
    sum (from 0) (fun n => n) [numbers] = (Normal t, [numbers]) /\
    count (from 0) [numbers] = (Normal n, [numbers]) /\
    a = PrimFloat.div t (number_of_length n).
Proof.
  apply (C10_average_sum_over_count (from 0) (fun n => n) [numbers] numbers).
  - reflexivity.
  - discriminate.
Defined.

(** C10, as stated, fails: multiplying the average back by the count need
    not give the sum.  On [[1, 0, ..., 0]] of length 49 the sum is 1, the
    average is 1/49 rounded, and 49 times that is 0.9999999999999999. *)
Lemma C10_product_is_not_sum :
  exists a t n,
    average (from 0) (fun n => n) [one_and_zeros] = (Normal a, [one_and_zeros]) /\
    sum (from 0) (fun n => n) [one_and_zeros] = (Normal t, [one_and_zeros]) /\
    count (from 0) [one_and_zeros] = (Normal n, [one_and_zeros]) /\
    PrimFloat.mul a (number_of_length n) <> t /\
    PrimFloat.eqb (PrimFloat.mul a (number_of_length n)) t = false.
Proof.
  exists (PrimFloat.div 1 49)%float, 1%float, 49.
  split; [vm_compute; reflexivity|]. split; [vm_compute; reflexivity|].
  split; [reflexivity|]. split; [|vm_compute; reflexivity].
  vm_compute. intros Heq. discriminate Heq.
Qed.

(** * Further properties *)

(** ** Lists *)

Section MoreElements.
Context {T : Type}.
Implicit Types (s : list T) (p q : T -> bool).

Lemma map_elements_fmap {R} (f : T -> R) s : map_elements f s = f <$> s.
Proof. induction s as [|x s IH]; cbn; congruence. Qed.

Lemma filter_elements_and p q s :
  filter_elements q (filter_elements p s) = filter_elements (fun x => p x && q x) s.
Proof.
  induction s as [|x s IH]; cbn; [reflexivity|].
  destruct (p x); cbn; [|exact IH]. destruct (q x); by rewrite IH.
Qed.

Lemma length_filter_elements_split p s :
  length (filter_elements p s) + length (filter_elements (fun x => negb (p x)) s)
  = length s.
Proof.
  induction s as [|x s IH]; cbn; [reflexivity|].
  destruct (p x); cbn; lia.
Qed.

Lemma length_filter_elements_le p s : length (filter_elements p s) <= length s.
Proof. pose proof (length_filter_elements_split p s). lia. Qed.

Lemma some_element_length p s :
  some_element p s = true <-> 0 < length (filter_elements p s).
Proof.
  induction s as [|x s IH]; cbn; [split; [done|lia]|].
  destruct (p x); cbn; [split; [lia|done]|exact IH].
Qed.

Lemma every_element_length p s :
  every_element p s = true <-> length (filter_elements p s) = length s.
Proof.
  induction s as [|x s IH]; cbn; [done|].
  destruct (p x); cbn.
  - rewrite IH. split; lia.
  - pose proof (length_filter_elements_le p s). split; [done|lia].
Qed.

Lemma every_not_some p s :
  every_element p s = negb (some_element (fun x => negb (p x)) s).
Proof. induction s as [|x s IH]; cbn; [reflexivity|]. by destruct (p x). Qed.

Lemma some_not_every p s :
  some_element p s = negb (every_element (fun x => negb (p x)) s).
Proof. induction s as [|x s IH]; cbn; [reflexivity|]. by destruct (p x). Qed.

End MoreElements.

Section MoreSets.
Context {A : Type} `{EqDecision A}.
Implicit Types (l : list A).

Lemma new_Set_NoDup l : NoDup l -> new_Set l = l.
Proof.
  induction l as [|x l IH] using rev_ind; intros Hnd; [reflexivity|].
  apply NoDup_app in Hnd as (Hl & Hx & _).
  rewrite new_Set_snoc, (IH Hl). unfold Set_add.
  destruct (decide (x ∈ l)) as [Hin|]; [|reflexivity].
  exfalso. apply (Hx x Hin). by apply list_elem_of_singleton.
Qed.

Lemma new_Set_idemp l : new_Set (new_Set l) = new_Set l.
Proof. apply new_Set_NoDup, NoDup_new_Set. Qed.

End MoreSets.

(** ** Groups *)

Section MoreGrouping.
Context {T K : Type} `{EqDecision K}.
Implicit Types (s : list T) (keySelector : T -> K) (keys : list K).

Lemma elements_with_key_cons keySelector x s k :
  elements_with_key keySelector (x :: s) k
  = if decide (keySelector x = k) then x :: elements_with_key keySelector s k
    else elements_with_key keySelector s k.
Proof.
  unfold elements_with_key. cbn.
  by destruct (decide (keySelector x = k));
    [rewrite bool_decide_eq_true_2|rewrite bool_decide_eq_false_2].
Qed.

(** Adding an element to the group of one key of a duplicate-free list of
    keys adds it once to the concatenation of the groups. *)
Lemma concat_groups_cons (g : K -> list T) (x : T) (k0 : K) keys :
  NoDup keys -> k0 ∈ keys ->
  concat ((fun k => if decide (k0 = k) then x :: g k else g k) <$> keys)
  ≡ₚ x :: concat (g <$> keys).
Proof.
  induction keys as [|k keys IH]; intros Hnd Hin; [by apply elem_of_nil in Hin|].
  apply NoDup_cons in Hnd as [Hk Hnd]. cbn.
  destruct (decide (k0 = k)) as [->|Hne].
  - assert ((fun k' => if decide (k = k') then x :: g k' else g k') <$> keys
            = g <$> keys) as ->.
    { apply list_fmap_ext. intros i k' Hi.
      destruct (decide (k = k')) as [->|]; [|reflexivity].
      exfalso. apply Hk. by apply (list_elem_of_lookup_2 _ i). }
    reflexivity.
  - apply elem_of_cons in Hin as [?|Hin]; [done|].
    rewrite (IH Hnd Hin). by rewrite Permutation_middle.
Qed.

Lemma concat_groups_perm keySelector s keys :
  NoDup keys -> (forall x, x ∈ s -> keySelector x ∈ keys) ->
  concat (elements_with_key keySelector s <$> keys) ≡ₚ s.
Proof.
  induction s as [|x s IH]; intros Hnd Hall.
  - induction keys as [|k keys IHk]; [reflexivity|].
    cbn. apply NoDup_cons in Hnd as [_ Hnd]. apply IHk; [exact Hnd|].
    intros x Hx. by apply elem_of_nil in Hx.
  - rewrite (list_fmap_ext _
      (fun k => if decide (keySelector x = k)
                then x :: elements_with_key keySelector s k
                else elements_with_key keySelector s k) keys)
      by (intros; apply elements_with_key_cons).
    rewrite concat_groups_cons; [|exact Hnd|apply Hall; by left].
    f_equiv. apply IH; [exact Hnd|]. intros y Hy. apply Hall. by right.
Qed.

Lemma elements_with_key_nonempty keySelector s x :
  x ∈ s -> elements_with_key keySelector s (keySelector x) <> [].
Proof.
  intros Hx Hnil.
  assert (x ∈ elements_with_key keySelector s (keySelector x)) as Hin
    by (apply elem_of_filter_elements; split; [done|by apply bool_decide_eq_true_2]).
  rewrite Hnil in Hin. by apply elem_of_nil in Hin.
Qed.

End MoreGrouping.

(** ** Comparison of numbers *)

Section Numbers.

Lemma SFltb_irrefl a : SFltb a a = false.
Proof.
  unfold SFltb. destruct a as [s|s| |s m e]; cbn; try (by destruct s); try reflexivity.
  destruct s; rewrite Z.compare_refl, Pos.compare_cont_refl; reflexivity.
Qed.

Ltac sf_cases :=
  repeat match goal with
  | s : bool |- _ => destruct s
  | |- context [Z.compare ?a ?b] => destruct (Z.compare_spec a b)
  | H : context [Z.compare ?a ?b] |- _ => destruct (Z.compare_spec a b)
  | |- context [Pos.compare_cont Eq ?a ?b] =>
      change (Pos.compare_cont Eq a b) with (Pos.compare a b);
      destruct (Pos.compare_spec a b)
  | H : context [Pos.compare_cont Eq ?a ?b] |- _ =>
      change (Pos.compare_cont Eq a b) with (Pos.compare a b) in H;
      destruct (Pos.compare_spec a b)
  end; cbn in *; try discriminate; try reflexivity; try lia.

(** Below [a] or equal, and [a] below [b]: not above [b]. *)
Lemma SFltb_raise a b c : SFltb a b = true -> SFltb a c = false -> SFltb b c = false.
Proof.
  unfold SFltb.
  destruct a as [s1|s1| |s1 m1 e1], b as [s2|s2| |s2 m2 e2], c as [s3|s3| |s3 m3 e3];
    cbn; intros Hab Hac; try discriminate; try reflexivity; sf_cases.
Qed.

Lemma SFltb_lower a b c : SFltb b a = true -> SFltb c a = false -> SFltb c b = false.
Proof.
  unfold SFltb.
  destruct a as [s1|s1| |s1 m1 e1], b as [s2|s2| |s2 m2 e2], c as [s3|s3| |s3 m3 e3];
    cbn; intros Hab Hac; try discriminate; try reflexivity; sf_cases.
Qed.

Lemma is_zero_Prim2SF (x : number) :
  PrimFloat.is_zero x = true -> exists sign, Prim2SF x = S754_zero sign.
Proof.
  unfold PrimFloat.is_zero. rewrite FloatAxioms.eqb_spec.
  change (Prim2SF PrimFloat.zero) with (S754_zero false).
  unfold SFeqb. destruct (Prim2SF x) as [s|s| |s m e]; cbn; [by eexists|..];
    try discriminate; by destruct s.
Qed.

(** The two zeros compare alike. *)
Lemma ltb_zero_left (x y v : number) :
  PrimFloat.is_zero x = true -> PrimFloat.is_zero y = true ->
  PrimFloat.ltb x v = PrimFloat.ltb y v.
Proof.
  intros [sx Hx]%is_zero_Prim2SF [sy Hy]%is_zero_Prim2SF.
  rewrite !FloatAxioms.ltb_spec, Hx, Hy. unfold SFltb. by destruct (Prim2SF v).
Qed.

Lemma ltb_zero_right (x y v : number) :
  PrimFloat.is_zero x = true -> PrimFloat.is_zero y = true ->
  PrimFloat.ltb v x = PrimFloat.ltb v y.
Proof.
  intros [sx Hx]%is_zero_Prim2SF [sy Hy]%is_zero_Prim2SF.
  rewrite !FloatAxioms.ltb_spec, Hx, Hy. unfold SFltb. by destruct (Prim2SF v).
Qed.

Lemma ltb_irrefl (x : number) : PrimFloat.ltb x x = false.
Proof. rewrite FloatAxioms.ltb_spec. apply SFltb_irrefl. Qed.

Lemma is_nan_Prim2SF (x : number) :
  PrimFloat.is_nan x = false -> Prim2SF x <> S754_nan.
Proof.
  unfold PrimFloat.is_nan. rewrite FloatAxioms.eqb_spec. intros Hx Hnan.
  rewrite Hnan in Hx. discriminate.
Qed.

(** Every number but NaN and -Infinity itself is above -Infinity. *)
Lemma above_neg_infinity (x : number) :
  PrimFloat.is_nan x = false ->
  (if PrimFloat.ltb PrimFloat.neg_infinity x then x else PrimFloat.neg_infinity) = x.
Proof.
  intros Hx%is_nan_Prim2SF. rewrite FloatAxioms.ltb_spec.
  change (Prim2SF PrimFloat.neg_infinity) with (S754_infinity true).
  unfold SFltb. destruct (Prim2SF x) as [s|s| |s m e] eqn:Hsf; cbn; try done.
  destruct s; [|reflexivity]. symmetry. by apply Prim2SF_inj.
Qed.

Lemma below_infinity (x : number) :
  PrimFloat.is_nan x = false ->
  (if PrimFloat.ltb x PrimFloat.infinity then x else PrimFloat.infinity) = x.
Proof.
  intros Hx%is_nan_Prim2SF. rewrite FloatAxioms.ltb_spec.
  change (Prim2SF PrimFloat.infinity) with (S754_infinity false).
  unfold SFltb. destruct (Prim2SF x) as [s|s| |s m e] eqn:Hsf; cbn; try done;
    destruct s; try reflexivity. symmetry. by apply Prim2SF_inj.
Qed.

End Numbers.

(** ** [Math.max] and [Math.min] *)

Section Extremes.
Implicit Types (values seen : list number) (x v : number).

Local Abbreviation raise := (fun highest x : number =>
  if is_pos_zero x && is_neg_zero highest then x
  else if PrimFloat.ltb highest x then x else highest).
Local Abbreviation lower := (fun lowest x : number =>
  if is_neg_zero x && is_pos_zero lowest then x
  else if PrimFloat.ltb x lowest then x else lowest).

Lemma fold_raise_member values init : fold_left raise values init ∈ init :: values.
Proof.
  revert init. induction values as [|x values IH]; intros init; cbn [fold_left].
  - by left.
  - specialize (IH (raise init x)). cbn beta in IH |- *.
    apply elem_of_cons in IH as [->|IH]; [|by do 2 right].
    destruct (is_pos_zero x && is_neg_zero init); [right; by left|].
    destruct (PrimFloat.ltb init x); [right|]; by left.
Qed.

Lemma fold_lower_member values init : fold_left lower values init ∈ init :: values.
Proof.
  revert init. induction values as [|x values IH]; intros init; cbn [fold_left].
  - by left.
  - specialize (IH (lower init x)). cbn beta in IH |- *.
    apply elem_of_cons in IH as [->|IH]; [|by do 2 right].
    destruct (is_neg_zero x && is_pos_zero init); [right; by left|].
    destruct (PrimFloat.ltb x init); [right|]; by left.
Qed.

Lemma fold_raise_bound values init seen :
  (forall v, v ∈ seen -> PrimFloat.ltb init v = false) ->
  forall v, v ∈ seen ++ values -> PrimFloat.ltb (fold_left raise values init) v = false.
Proof.
  revert init seen. induction values as [|x values IH]; intros init seen Hseen v Hv.
  - rewrite app_nil_r in Hv. by apply Hseen.
  - cbn [fold_left]. apply (IH _ (seen ++ [x])); [|by rewrite <- app_assoc].
    clear v Hv. intros v [Hv|Hv]%elem_of_app;
      [|apply list_elem_of_singleton in Hv; subst v]; cbn beta.
    + destruct (is_pos_zero x && is_neg_zero init) eqn:Hz.
      * apply andb_true_iff in Hz as [[Hx _]%andb_true_iff [Hi _]%andb_true_iff].
        rewrite (ltb_zero_left x init v Hx Hi). by apply Hseen.
      * destruct (PrimFloat.ltb init x) eqn:Hlt; [|by apply Hseen].
        specialize (Hseen v Hv). rewrite FloatAxioms.ltb_spec in Hlt, Hseen |- *.
        exact (SFltb_raise _ _ _ Hlt Hseen).
    + destruct (is_pos_zero x && is_neg_zero init); [apply ltb_irrefl|].
      destruct (PrimFloat.ltb init x) eqn:Hlt; [apply ltb_irrefl|exact Hlt].
Qed.

Lemma fold_lower_bound values init seen :
  (forall v, v ∈ seen -> PrimFloat.ltb v init = false) ->
  forall v, v ∈ seen ++ values -> PrimFloat.ltb v (fold_left lower values init) = false.
Proof.
  revert init seen. induction values as [|x values IH]; intros init seen Hseen v Hv.
  - rewrite app_nil_r in Hv. by apply Hseen.
  - cbn [fold_left]. apply (IH _ (seen ++ [x])); [|by rewrite <- app_assoc].
    clear v Hv. intros v [Hv|Hv]%elem_of_app;
      [|apply list_elem_of_singleton in Hv; subst v]; cbn beta.
    + destruct (is_neg_zero x && is_pos_zero init) eqn:Hz.
      * apply andb_true_iff in Hz as [[Hx _]%andb_true_iff [Hi _]%andb_true_iff].
        rewrite (ltb_zero_right x init v Hx Hi). by apply Hseen.
      * destruct (PrimFloat.ltb x init) eqn:Hlt; [|by apply Hseen].
        specialize (Hseen v Hv). rewrite FloatAxioms.ltb_spec in Hlt, Hseen |- *.
        exact (SFltb_lower _ _ _ Hlt Hseen).
    + destruct (is_neg_zero x && is_pos_zero init); [apply ltb_irrefl|].
      destruct (PrimFloat.ltb x init) eqn:Hlt; [apply ltb_irrefl|exact Hlt].
Qed.

(** Without NaN among its arguments, and with at least one, [Math.max]
    returns one of them, and none is greater. *)
Lemma Math_max_greatest values :
  values <> [] -> existsb PrimFloat.is_nan values = false ->
  Math_max values ∈ values /\
  forall v, v ∈ values -> PrimFloat.ltb (Math_max values) v = false.
Proof.
  intros Hne Hnan. unfold Math_max. rewrite Hnan.
  destruct values as [|x values]; [done|]. cbn [fold_left].
  cbn in Hnan. apply orb_false_iff in Hnan as [Hx _].
  change (is_neg_zero PrimFloat.neg_infinity) with false.
  rewrite andb_false_r, (above_neg_infinity x Hx). split.
  - apply fold_raise_member.
  - apply (fold_raise_bound values x [x]).
    intros v ->%list_elem_of_singleton. apply ltb_irrefl.
Qed.

Lemma Math_min_least values :
  values <> [] -> existsb PrimFloat.is_nan values = false ->
  Math_min values ∈ values /\
  forall v, v ∈ values -> PrimFloat.ltb v (Math_min values) = false.
Proof.
  intros Hne Hnan. unfold Math_min. rewrite Hnan.
  destruct values as [|x values]; [done|]. cbn [fold_left].
  cbn in Hnan. apply orb_false_iff in Hnan as [Hx _].
  change (is_pos_zero PrimFloat.infinity) with false.
  rewrite andb_false_r, (below_infinity x Hx). split.
  - apply fold_lower_member.
  - apply (fold_lower_bound values x [x]).
    intros v ->%list_elem_of_singleton. apply ltb_irrefl.
Qed.

Lemma existsb_is_nan_selected {T} (selector : T -> number) (s : list T) :
  existsb PrimFloat.is_nan (map_elements selector s)
  = some_element (fun item : T => PrimFloat.is_nan (selector item)) s.
Proof.
  induction s as [|item s IH]; cbn; [reflexivity|].
  rewrite IH. by destruct (PrimFloat.is_nan (selector item)).
Qed.

End Extremes.

(** ** Methods on a known array *)

Section MoreMethods.
Context {T : Type} `{EqDecision T} {engine : Engine}.
Implicit Types (h : heap T) (s : list T) (this : LinqService).

Lemma count_spec this h s :
  h !! data this = Some s -> count this h = (Normal (length s), h).
Proof. intros H0. run H0. reflexivity. Qed.

Lemma any_spec this p h s :
  h !! data this = Some s -> any this p h = (Normal (some_element p s), h).
Proof. intros H0. run H0. reflexivity. Qed.

Lemma all_spec this p h s :
  h !! data this = Some s -> all this p h = (Normal (every_element p s), h).
Proof. intros H0. run H0. reflexivity. Qed.

Lemma Array_push_spec h r a x :
  h !! r = Some a -> Array_push r x h = (Normal tt, <[r := a ++ [x]]> h).
Proof. intros Hr. unfold Array_push, bind, deref, store. by rewrite Hr. Qed.

Lemma max_spec this selector h s :
  h !! data this = Some s -> s <> [] ->
  (N.of_nat (length s) <=? max_arguments)%N = true ->
  max this selector h = (Normal (Math_max (map_elements selector s)), h).
Proof.
  intros H0 Hs Hfit. run H0. destruct s as [|x s]; [done|]. cbn [length Nat.eqb].
  rewrite H0. cbn beta iota. unfold call_spread.
  by rewrite length_map_elements, Hfit.
Qed.

Lemma min_spec this selector h s :
  h !! data this = Some s -> s <> [] ->
  (N.of_nat (length s) <=? max_arguments)%N = true ->
  min this selector h = (Normal (Math_min (map_elements selector s)), h).
Proof.
  intros H0 Hs Hfit. run H0. destruct s as [|x s]; [done|]. cbn [length Nat.eqb].
  rewrite H0. cbn beta iota. unfold call_spread.
  by rewrite length_map_elements, Hfit.
Qed.

End MoreMethods.

(** ** Projection, first element, predicates *)

(** X1. [select(selector)] returns an array as long as the sequence whose
    element at every index is the selector applied to the element of the
    sequence at that index; the store is left as it was. *)
Theorem X1_select_pointwise {T R}
    (this : LinqService) (selector : T -> R) (h : heap T) (s : list T) :
  h !! data this = Some s ->
  exists l,
    select this selector h = (Normal l, h) /\
    length l = length s /\
    (forall i, l !! i = selector <$> s !! i).
Proof.
  intros H0. exists (map_elements selector s).
  split; [by apply select_spec|]. split; [apply length_map_elements|].
  intros i. rewrite map_elements_fmap. apply list_lookup_fmap.
Qed.

Lemma X1_select_pointwise_witness :
  exists l,
    select (from 0) (fun n => n * 2)%Z [small] = (Normal l, [small]) /\
    length l = length small /\
    (forall i, l !! i = (fun n => n * 2)%Z <$> small !! i).
Proof. apply (X1_select_pointwise (from 0) (fun n => n * 2)%Z [small]). reflexivity. Defined.

(** X2. [firstOrDefault(defaultValue)] never throws: it returns the element
    at index 0 when there is one and [defaultValue] otherwise.  Whenever
    [first()] returns a value, [firstOrDefault] returns the same value;
    whenever [first()] throws, [firstOrDefault] returns [defaultValue]. *)
Theorem X2_firstOrDefault_agrees_with_first {T}
    (this : LinqService) (defaultValue : T) (h : heap T) (s : list T) :
  h !! data this = Some s ->
  firstOrDefault this defaultValue h = (Normal (default defaultValue (s !! 0)), h) /\
  (forall v h', first this h = (Normal v, h') ->
                firstOrDefault this defaultValue h = (Normal v, h')) /\
  (forall e h', first this h = (Throw e, h') ->
                firstOrDefault this defaultValue h = (Normal defaultValue, h')).
Proof.
  intros H0. unfold first, firstOrDefault, bind, deref. rewrite H0.
  destruct s as [|x s]; cbn; (split; [reflexivity|split]);
    unfold ret, throw; intros ? ? [= <- <-]; reflexivity.
Qed.

Lemma X2_firstOrDefault_agrees_with_first_witness :
  firstOrDefault (from 0) 0%Z [small] = (Normal (default 0%Z (small !! 0)), [small]) /\
  (forall v h', first (from 0) [small] = (Normal v, h') ->
                firstOrDefault (from 0) 0%Z [small] = (Normal v, h')) /\
  (forall e h', first (from 0) [small] = (Throw e, h') ->
                firstOrDefault (from 0) 0%Z [small] = (Normal 0%Z, h')).
Proof.
  apply (X2_firstOrDefault_agrees_with_first (from 0) 0%Z [small]). reflexivity.
Defined.

(** X3. [all] and [any] are dual: [all(p)] is the negation of [any] of the
    negated predicate, and [any(p)] is the negation of [all] of the negated
    predicate. *)
Theorem X3_all_any_duality {T}
    (this : LinqService) (predicate : T -> bool) (h : heap T) (s : list T) :
  h !! data this = Some s ->
  exists every some every_not some_not,
    all this predicate h = (Normal every, h) /\
    any this predicate h = (Normal some, h) /\
    all this (fun x => negb (predicate x)) h = (Normal every_not, h) /\
    any this (fun x => negb (predicate x)) h = (Normal some_not, h) /\
    every = negb some_not /\
    some = negb every_not.
Proof.
  intros H0. eexists _, _, _, _.
  split; [by apply (@all_spec T)|]. split; [by apply (@any_spec T)|].
  split; [by apply (@all_spec T)|]. split; [by apply (@any_spec T)|].
  split; [apply every_not_some|apply some_not_every].
Qed.

Lemma X3_all_any_duality_witness :
  exists every some every_not some_not,
    all (from 0) Z.even [small] = (Normal every, [small]) /\
    any (from 0) Z.even [small] = (Normal some, [small]) /\
    all (from 0) (fun x => negb (Z.even x)) [small] = (Normal every_not, [small]) /\
    any (from 0) (fun x => negb (Z.even x)) [small] = (Normal some_not, [small]) /\
    every = negb some_not /\
    some = negb every_not.
Proof. apply (X3_all_any_duality (from 0) Z.even [small] small). reflexivity. Defined.

(** X4. [any(p)] is true exactly when the array returned by [where(p)] has
    an element, and [all(p)] is true exactly when that array is as long as
    the sequence ([count()] of a wrapper of the result). *)
Theorem X4_any_all_by_where {T}
    (this : LinqService) (predicate : T -> bool) (h : heap T) (s : list T) :
  h !! data this = Some s ->
  exists r h1 kept total some every,
    where_ this predicate h = (Normal r, h1) /\
    count (from r) h1 = (Normal kept, h1) /\
    count this h = (Normal total, h) /\
    any this predicate h = (Normal some, h) /\
    all this predicate h = (Normal every, h) /\
    (some = true <-> 0 < kept) /\
    (every = true <-> kept = total).
Proof.
  intros H0. eexists _, _, _, _, _, _.
  split; [by apply where_spec|].
  split; [eapply (@count_spec T), lookup_alloc_new|].
  split; [by apply (@count_spec T)|].
  split; [by apply (@any_spec T)|]. split; [by apply (@all_spec T)|].
  split; [apply some_element_length|apply every_element_length].
Qed.

Lemma X4_any_all_by_where_witness :
  exists r h1 kept total some every,
    where_ (from 0) Z.even [small] = (Normal r, h1) /\
    count (from r) h1 = (Normal kept, h1) /\
    count (from 0) [small] = (Normal total, [small]) /\
    any (from 0) Z.even [small] = (Normal some, [small]) /\
    all (from 0) Z.even [small] = (Normal every, [small]) /\
    (some = true <-> 0 < kept) /\
    (every = true <-> kept = total).
Proof. apply (X4_any_all_by_where (from 0) Z.even [small] small). reflexivity. Defined.

(** ** Filtering *)

(** X5. Filtering the result of a filter is filtering by the conjunction:
    [where(q)] on a wrapper of the array returned by [where(p)] returns the
    elements that [where(x => p(x) && q(x))] returns on the sequence. *)
Theorem X5_where_of_where {T}
    (this : LinqService) (p q : T -> bool) (h : heap T) (s : list T) :
  h !! data this = Some s ->
  exists r1 h1 r2 h2 r3 h3 d,
    where_ this p h = (Normal r1, h1) /\
    where_ (from r1) q h1 = (Normal r2, h2) /\
    h2 !! r2 = Some d /\
    where_ this (fun x => p x && q x) h = (Normal r3, h3) /\
    h3 !! r3 = Some d.
Proof.
  intros H0. eexists _, _, _, _, _, _, _.
  split; [by apply where_spec|].
  split; [apply where_spec, lookup_alloc_new|].
  split; [apply lookup_alloc_new|].
  split; [by apply where_spec|].
  rewrite filter_elements_and. apply lookup_alloc_new.
Qed.

Lemma X5_where_of_where_witness :
  exists r1 h1 r2 h2 r3 h3 d,
    where_ (from 0) Z.even [upto5] = (Normal r1, h1) /\
    where_ (from r1) (fun n => 2 <? n)%Z h1 = (Normal r2, h2) /\
    h2 !! r2 = Some d /\
    where_ (from 0) (fun x => Z.even x && (2 <? x)%Z) [upto5] = (Normal r3, h3) /\
    h3 !! r3 = Some d.
Proof.
  apply (X5_where_of_where (from 0) Z.even (fun n => 2 <? n)%Z [upto5] upto5). reflexivity.
Defined.

(** X6. A predicate splits the sequence: the number of elements that
    [where(p)] returns and the number that [where] of the negated predicate
    returns add up to [count()]. *)
Theorem X6_where_splits_count {T}
    (this : LinqService) (p : T -> bool) (h : heap T) (s : list T) :
  h !! data this = Some s ->
  exists r1 h1 kept r2 h2 dropped total,
    where_ this p h = (Normal r1, h1) /\
    count (from r1) h1 = (Normal kept, h1) /\
    where_ this (fun x => negb (p x)) h = (Normal r2, h2) /\
    count (from r2) h2 = (Normal dropped, h2) /\
    count this h = (Normal total, h) /\
    kept + dropped = total.
Proof.
  intros H0. eexists _, _, _, _, _, _, _.
  split; [by apply where_spec|].
  split; [eapply (@count_spec T), lookup_alloc_new|].
  split; [by apply where_spec|].
  split; [eapply (@count_spec T), lookup_alloc_new|].
  split; [by apply (@count_spec T)|].
  apply length_filter_elements_split.
Qed.

Lemma X6_where_splits_count_witness :
  exists r1 h1 kept r2 h2 dropped total,
    where_ (from 0) Z.even [upto5] = (Normal r1, h1) /\
    count (from r1) h1 = (Normal kept, h1) /\
    where_ (from 0) (fun x => negb (Z.even x)) [upto5] = (Normal r2, h2) /\
    count (from r2) h2 = (Normal dropped, h2) /\
    count (from 0) [upto5] = (Normal total, [upto5]) /\
    kept + dropped = total.
Proof. apply (X6_where_splits_count (from 0) Z.even [upto5] upto5). reflexivity. Defined.

(** ** Distinct elements *)

(** X7. [distinct()] is idempotent and never longer than the sequence:
    applied to a wrapper of its own result it returns the same elements,
    and on a sequence without duplicates it returns the sequence itself. *)
Theorem X7_distinct_idempotent {T} `{EqDecision T}
    (this : LinqService) (h : heap T) (s : list T) :
  h !! data this = Some s ->
  exists r1 h1 d r2 h2,
    distinct this h = (Normal r1, h1) /\
    h1 !! r1 = Some d /\
    distinct (from r1) h1 = (Normal r2, h2) /\
    h2 !! r2 = Some d /\
    length d <= length s /\
    (NoDup s -> d = s).
Proof.
  intros H0. eexists _, _, _, _, _.
  split; [by apply distinct_spec|]. split; [apply lookup_alloc_new|].
  split; [apply distinct_spec, lookup_alloc_new|].
  split; [rewrite new_Set_idemp; apply lookup_alloc_new|].
  split; [apply sublist_length, sublist_new_Set|apply new_Set_NoDup].
Qed.

Lemma X7_distinct_idempotent_witness :
  exists r1 h1 d r2 h2,
    distinct (from 0) [[1; 2; 2; 3; 3; 3]%Z] = (Normal r1, h1) /\
    h1 !! r1 = Some d /\
    distinct (from r1) h1 = (Normal r2, h2) /\
    h2 !! r2 = Some d /\
    length d <= length [1; 2; 2; 3; 3; 3]%Z /\
    (NoDup [1; 2; 2; 3; 3; 3]%Z -> d = [1; 2; 2; 3; 3; 3]%Z).
Proof. apply (X7_distinct_idempotent (from 0) [[1; 2; 2; 3; 3; 3]%Z]). reflexivity. Defined.

(** ** Ordering, composed *)

Section MoreOrdering.
Context {T K : Type} {ops : RelOps K} {total : TotalOrderKey K}.
Implicit Types (s : list T) (keySelector : T -> K).

Lemma ascending_of_sorted keySelector s :
  StronglySorted (in_order keySelector) s ->
  sort_elements (compare_ascending keySelector) s = s.
Proof.
  intros Hs. symmetry.
  by apply (sort_elements_unique keySelector _ (compare_ascending_positive keySelector)).
Qed.

Lemma ascending_of_ascending keySelector s :
  sort_elements (compare_ascending keySelector)
    (sort_elements (compare_ascending keySelector) s)
  = sort_elements (compare_ascending keySelector) s.
Proof. apply ascending_of_sorted, ascending_sorted. Qed.

Lemma ascending_of_descending keySelector s :
  sort_elements (compare_ascending keySelector)
    (sort_elements (compare_descending keySelector) s)
  = sort_elements (compare_ascending keySelector) s.
Proof.
  symmetry.
  apply (sort_elements_unique keySelector _ (compare_ascending_positive keySelector)).
  - apply ascending_sorted.
  - intros k. by rewrite ascending_stable, descending_stable.
Qed.

End MoreOrdering.

(** X8. Sorting ascending forgets an earlier sort: [orderBy] on a wrapper of
    the array returned by [orderByDescending] (same key selector), and
    [orderBy] on a wrapper of the array returned by [orderBy], both return
    the elements that [orderBy] returns on the sequence. *)
Theorem X8_orderBy_after_a_sort {T K} `{RelOps K} (total : TotalOrderKey K)
    (this : LinqService) (keySelector : T -> K) (h : heap T) (s : list T) :
  h !! data this = Some s ->
  exists ra ha ascending rd hd r1 h1 r2 h2,
    orderBy this keySelector h = (Normal ra, ha) /\
    ha !! ra = Some ascending /\
    orderByDescending this keySelector h = (Normal rd, hd) /\
    orderBy (from rd) keySelector hd = (Normal r1, h1) /\
    h1 !! r1 = Some ascending /\
    orderBy (from ra) keySelector ha = (Normal r2, h2) /\
    h2 !! r2 = Some ascending.
Proof.
  intros H0. eexists _, _, _, _, _, _, _, _, _.
  split; [by apply orderBy_spec|]. split; [apply lookup_alloc_new|].
  split; [by apply orderByDescending_spec|].
  split; [apply orderBy_spec, lookup_alloc_new|].
  split; [rewrite ascending_of_descending; apply lookup_alloc_new|].
  split; [apply orderBy_spec, lookup_alloc_new|].
  rewrite ascending_of_ascending. apply lookup_alloc_new.
Qed.

Lemma X8_orderBy_after_a_sort_witness :
  exists ra ha ascending rd hd r1 h1 r2 h2,
    orderBy (from 0) age [items] = (Normal ra, ha) /\
    ha !! ra = Some ascending /\
    orderByDescending (from 0) age [items] = (Normal rd, hd) /\
    orderBy (from rd) age hd = (Normal r1, h1) /\
    h1 !! r1 = Some ascending /\
    orderBy (from ra) age ha = (Normal r2, h2) /\
    h2 !! r2 = Some ascending.
Proof. apply (X8_orderBy_after_a_sort Z_total (from 0) age [items] items). reflexivity. Defined.

(** X9. On a sequence that is already in ascending order of the keys,
    [orderBy] returns a copy with the elements in the same order. *)
Theorem X9_orderBy_of_sorted {T K} `{RelOps K} (total : TotalOrderKey K)
    (this : LinqService) (keySelector : T -> K) (h : heap T) (s : list T) :
  h !! data this = Some s ->
  StronglySorted (in_order keySelector) s ->
  exists r h',
    orderBy this keySelector h = (Normal r, h') /\
    r <> data this /\
    h' !! r = Some s.
Proof.
  intros H0 Hs. eexists _, _. split; [by apply orderBy_spec|].
  split; [apply lookup_lt_Some in H0; lia|].
  rewrite (ascending_of_sorted _ _ Hs). apply lookup_alloc_new.
Qed.

Lemma X9_orderBy_of_sorted_witness :
  exists r h',
    orderBy (from 0) (fun n : Z => n) [small] = (Normal r, h') /\
    r <> 0 /\
    h' !! r = Some small.
Proof.
  apply (X9_orderBy_of_sorted Z_total (from 0) (fun n : Z => n) [small] small).
  - reflexivity.
  - repeat constructor.
Defined.

(** X10. [first()] on a wrapper of the array returned by [orderBy] is an
    element of the sequence with the smallest key, and among the elements
    of that key the one that comes first in the sequence. *)
Theorem X10_first_of_orderBy {T K} `{RelOps K} (total : TotalOrderKey K)
    (this : LinqService) (keySelector : T -> K) (h : heap T) (s : list T) :
  h !! data this = Some s ->
  s <> [] ->
  exists r h1 x later,
    orderBy this keySelector h = (Normal r, h1) /\
    first (from r) h1 = (Normal x, h1) /\
    x ∈ s /\
    (forall y, y ∈ s -> js_lt (keySelector y) (keySelector x) = false) /\
    filter_elements (fun z => same_key (keySelector z) (keySelector x)) s = x :: later.
Proof.
  intros H0 Hs.
  pose proof (sort_elements_perm (compare_ascending keySelector) s) as Hperm.
  pose proof (ascending_sorted keySelector s) as Hsorted.
  pose proof (ascending_stable keySelector) as Hstable.
  destruct (sort_elements (compare_ascending keySelector) s) as [|x rest] eqn:Hsort.
  { apply Permutation_nil_l in Hperm. by symmetry in Hperm. }
  exists (length h), (h ++ [x :: rest]), x,
    (filter_elements (fun z => same_key (keySelector z) (keySelector x)) rest).
  split; [rewrite <- Hsort; by apply orderBy_spec|].
  split; [unfold first, bind, deref, from; cbn [data]; by rewrite lookup_alloc_new|].
  apply StronglySorted_cons in Hsorted as [Hx _]. rewrite Forall_forall in Hx.
  split; [rewrite <- Hperm; by left|]. split.
  - intros y Hy. rewrite <- Hperm in Hy.
    apply elem_of_cons in Hy as [->|Hy]; [apply js_lt_irrefl|by apply Hx].
  - rewrite <- (Hstable (keySelector x) s), Hsort. cbn.
    by rewrite same_key_refl.
Qed.

Lemma X10_first_of_orderBy_witness :
  exists r h1 x later,
    orderBy (from 0) age [items] = (Normal r, h1) /\
    first (from r) h1 = (Normal x, h1) /\
    x ∈ items /\
    (forall y, y ∈ items -> js_lt (age y) (age x) = false) /\
    filter_elements (fun z => same_key (age z) (age x)) items = x :: later.
Proof.
  apply (X10_first_of_orderBy Z_total (from 0) age [items] items).
  - reflexivity.
  - discriminate.
Defined.

(** ** Groups, composed *)

(** X11. The groups of [groupBy] split the sequence: no group is empty, and
    the groups put one after the other in the order of the map hold the
    elements of the sequence, each as often as the sequence does. *)
Theorem X11_groupBy_partition {T K} `{EqDecision K}
    (this : LinqService) (keySelector : T -> K) (h : heap T) (s : list T) :
  h !! data this = Some s ->
  exists m h' groups,
    groupBy this keySelector h = (Normal m, h') /\
    Forall2 (fun entry group => h' !! entry.2 = Some group) m groups /\
    Forall (fun group => group <> []) groups /\
    concat groups ≡ₚ s.
Proof.
  intros H0.
  destruct (groupBy_spec this keySelector h s H0) as (m & h' & Hrun & Hbuilt).
  exists m, h', (elements_with_key keySelector s <$> m.*1).
  split; [exact Hrun|]. pose proof Hbuilt as (Hkeys & _ & _). split; [|split].
  - apply Forall2_same_length_lookup. split; [by rewrite !length_fmap|].
    intros i [k r] group Hi Hg. rewrite !list_lookup_fmap, Hi in Hg.
    injection Hg as <-. by apply (groups_built_lookup _ _ _ _ _ _ _ _ Hbuilt Hi).
  - apply Forall_fmap, Forall_forall. intros k Hk. cbn.
    rewrite Hkeys in Hk. apply elem_of_new_Set, list_elem_of_fmap in Hk as (x & -> & Hx).
    by apply elements_with_key_nonempty.
  - apply concat_groups_perm.
    + rewrite Hkeys. apply NoDup_new_Set.
    + intros x Hx. rewrite Hkeys. apply elem_of_new_Set, list_elem_of_fmap. by exists x.
Qed.

Lemma X11_groupBy_partition_witness :
  exists m h' groups,
    groupBy (from 0) age [items] = (Normal m, h') /\
    Forall2 (fun entry group => h' !! entry.2 = Some group) m groups /\
    Forall (fun group => group <> []) groups /\
    concat groups ≡ₚ items.
Proof. apply (X11_groupBy_partition (from 0) age [items]). reflexivity. Defined.

(** X12. The keys of the map of [groupBy(keySelector)], in the order of the
    map, are what [distinct()] returns on a wrapper of the array that
    [select(keySelector)] returns. *)
Theorem X12_groupBy_keys_distinct {T K} `{EqDecision K}
    (this : LinqService) (keySelector : T -> K) (h : heap T) (s : list T) :
  h !! data this = Some s ->
  exists m h' keys,
    groupBy this keySelector h = (Normal m, h') /\
    select this keySelector h = (Normal keys, h) /\
    forall (hk : heap K) (d : ref), hk !! d = Some keys ->
      exists r hk', distinct (from d) hk = (Normal r, hk') /\ hk' !! r = Some m.*1.
Proof.
  intros H0.
  destruct (groupBy_spec this keySelector h s H0) as (m & h' & Hrun & Hkeys & _).
  exists m, h', (map_elements keySelector s).
  split; [exact Hrun|]. split; [by apply select_spec|].
  intros hk d Hd. eexists _, _. split; [by apply distinct_spec|].
  rewrite Hkeys, map_elements_fmap. apply lookup_alloc_new.
Qed.

Lemma X12_groupBy_keys_distinct_witness :
  exists m h' keys,
    groupBy (from 0) age [items] = (Normal m, h') /\
    select (from 0) age [items] = (Normal keys, [items]) /\
    forall (hk : heap Z) (d : ref), hk !! d = Some keys ->
      exists r hk', distinct (from d) hk = (Normal r, hk') /\ hk' !! r = Some m.*1.
Proof. apply (X12_groupBy_keys_distinct (from 0) age [items] items). reflexivity. Defined.

(** X13. Each group of [groupBy] is a new array of its own: the references
    in the map are pairwise different, none of them was in use before the
    call (so none is the wrapped array), and the wrapped array is left as
    it was. *)
Theorem X13_groupBy_new_arrays {T K} `{EqDecision K}
    (this : LinqService) (keySelector : T -> K) (h : heap T) (s : list T) :
  h !! data this = Some s ->
  exists m h',
    groupBy this keySelector h = (Normal m, h') /\
    NoDup m.*2 /\
    (forall r, r ∈ m.*2 -> h !! r = None /\ r <> data this) /\
    h' !! data this = Some s.
Proof.
  intros H0.
  destruct (groupBy_spec this keySelector h s H0) as (m & h' & Hrun & _ & Hrefs & ->).
  eexists m, _. split; [exact Hrun|]. rewrite Hrefs. split; [apply NoDup_seq|].
  split; [|by apply lookup_grow_old].
  intros r [Hr _]%elem_of_seq. apply lookup_lt_Some in H0.
  split; [apply lookup_ge_None; lia|lia].
Qed.

Lemma X13_groupBy_new_arrays_witness :
  exists m h',
    groupBy (from 0) age [items] = (Normal m, h') /\
    NoDup m.*2 /\
    (forall r, r ∈ m.*2 -> [items] !! r = None /\ r <> 0) /\
    h' !! 0 = Some items.
Proof. apply (X13_groupBy_new_arrays (from 0) age [items] items). reflexivity. Defined.

(** ** Greatest and least *)

(** X14. On a non-empty sequence that has no more elements than the engine
    accepts arguments in a call, and whose selected values are all numbers
    (no NaN), [max(selector)] returns the selected value of some element,
    and no element has a greater selected value. *)
Theorem X14_max_is_greatest {T} `{Engine}
    (this : LinqService) (selector : T -> number) (h : heap T) (s : list T) :
  h !! data this = Some s ->
  s <> [] ->
  (N.of_nat (length s) <=? max_arguments)%N = true ->
  some_element (fun x => PrimFloat.is_nan (selector x)) s = false ->
  exists m,
    max this selector h = (Normal m, h) /\
    (exists x, x ∈ s /\ m = selector x) /\
    (forall x, x ∈ s -> PrimFloat.ltb m (selector x) = false).
Proof.
  intros H0 Hs Hfit Hnan. exists (Math_max (map_elements selector s)).
  split; [by apply max_spec|].
  destruct (Math_max_greatest (map_elements selector s)) as [Hin Hbound].
  { intros Hnil. apply Hs. destruct s; [reflexivity|discriminate]. }
  { by rewrite existsb_is_nan_selected. }
  rewrite map_elements_fmap in Hin, Hbound |- *. split.
  - apply list_elem_of_fmap in Hin as (x & Hm & Hx). by exists x.
  - intros x Hx. apply Hbound. apply list_elem_of_fmap. by exists x.
Qed.

Lemma X14_max_is_greatest_witness :
  exists m,
    max (engine := node) (from 0) (fun n => n) [numbers] = (Normal m, [numbers]) /\
    (exists x, x ∈ numbers /\ m = x) /\
    (forall x, x ∈ numbers -> PrimFloat.ltb m x = false).
Proof.
  apply (@X14_max_is_greatest number node (from 0) (fun n => n) [numbers] numbers).
  - reflexivity.
  - discriminate.
  - vm_compute. reflexivity.
  - vm_compute. reflexivity.
Defined.

(** X15. On a non-empty sequence that has no more elements than the engine
    accepts arguments in a call, and whose selected values are all numbers
    (no NaN), [min(selector)] returns the selected value of some element,
    and no element has a smaller selected value. *)
Theorem X15_min_is_least {T} `{Engine}
    (this : LinqService) (selector : T -> number) (h : heap T) (s : list T) :
  h !! data this = Some s ->
  s <> [] ->
  (N.of_nat (length s) <=? max_arguments)%N = true ->
  some_element (fun x => PrimFloat.is_nan (selector x)) s = false ->
  exists m,
    min this selector h = (Normal m, h) /\
    (exists x, x ∈ s /\ m = selector x) /\
    (forall x, x ∈ s -> PrimFloat.ltb (selector x) m = false).
Proof.
  intros H0 Hs Hfit Hnan. exists (Math_min (map_elements selector s)).
  split; [by apply min_spec|].
  destruct (Math_min_least (map_elements selector s)) as [Hin Hbound].
  { intros Hnil. apply Hs. destruct s; [reflexivity|discriminate]. }
  { by rewrite existsb_is_nan_selected. }
  rewrite map_elements_fmap in Hin, Hbound |- *. split.
  - apply list_elem_of_fmap in Hin as (x & Hm & Hx). by exists x.
  - intros x Hx. apply Hbound. apply list_elem_of_fmap. by exists x.
Qed.

Lemma X15_min_is_least_witness :
  exists m,
    min (engine := node) (from 0) (fun n => n) [numbers] = (Normal m, [numbers]) /\
    (exists x, x ∈ numbers /\ m = x) /\
    (forall x, x ∈ numbers -> PrimFloat.ltb x m = false).
Proof.
  apply (@X15_min_is_least number node (from 0) (fun n => n) [numbers] numbers).
  - reflexivity.
  - discriminate.
  - vm_compute. reflexivity.
  - vm_compute. reflexivity.
Defined.

(** ** The wrapper and the arrays around it *)

(** X16. The wrapper holds the array it was given, not a copy: when the
    owner of the array appends an element after the wrapper was made,
    [count()] counts it and [select] (here with the identity) returns it
    with the others. *)
Theorem X16_wrapper_shares_array {T}
    (d : ref) (x : T) (h : heap T) (s : list T) :
  h !! d = Some s ->
  exists h1,
    Array_push d x h = (Normal tt, h1) /\
    count (from d) h1 = (Normal (S (length s)), h1) /\
    select (from d) (fun y => y) h1 = (Normal (s ++ [x]), h1).
Proof.
  intros H0. pose proof (lookup_lt_Some _ _ _ H0) as Hlt.
  exists (<[d := s ++ [x]]> h). split; [by apply Array_push_spec|].
  assert (<[d := s ++ [x]]> h !! data (from d) = Some (s ++ [x])) as H1
    by (by apply list_lookup_insert_eq).
  split.
  - rewrite (count_spec _ _ _ H1), length_app. cbn. do 2 f_equal. lia.
  - rewrite (select_spec _ _ _ _ H1), map_elements_fmap, list_fmap_id. reflexivity.
Qed.

Lemma X16_wrapper_shares_array_witness :
  exists h1,
    Array_push 0 4%Z [small] = (Normal tt, h1) /\
    count (from 0) h1 = (Normal (S (length small)), h1) /\
    select (from 0) (fun y => y) h1 = (Normal (small ++ [4%Z]), h1).
Proof. apply (X16_wrapper_shares_array 0 4%Z [small] small). reflexivity. Defined.

(** X17. [where] and [distinct] return a new array: its reference was not
    in use before the call, and appending to the returned array afterwards
    changes that array only, not the wrapped one. *)
Theorem X17_results_are_new_arrays {T} `{EqDecision T}
    (this : LinqService) (p : T -> bool) (x : T) (h : heap T) (s : list T) :
  h !! data this = Some s ->
  (exists r h1 d h2,
     where_ this p h = (Normal r, h1) /\
     h !! r = None /\ h1 !! r = Some d /\
     Array_push r x h1 = (Normal tt, h2) /\
     h2 !! r = Some (d ++ [x]) /\ h2 !! data this = Some s) /\
  (exists r h1 d h2,
     distinct this h = (Normal r, h1) /\
     h !! r = None /\ h1 !! r = Some d /\
     Array_push r x h1 = (Normal tt, h2) /\
     h2 !! r = Some (d ++ [x]) /\ h2 !! data this = Some s).
Proof.
  intros H0. split; eexists _, _, _, _;
    (split; [by (apply where_spec || apply distinct_spec)|]);
    (split; [by apply lookup_ge_None|]);
    (split; [apply lookup_alloc_new|]);
    (split; [apply Array_push_spec, lookup_alloc_new|]);
    rewrite insert_alloc_new;
    (split; [apply lookup_alloc_new|by apply lookup_alloc_old]).
Qed.

Lemma X17_results_are_new_arrays_witness :
  (exists r h1 d h2,
     where_ (from 0) Z.even [small] = (Normal r, h1) /\
     [small] !! r = None /\ h1 !! r = Some d /\
     Array_push r 4%Z h1 = (Normal tt, h2) /\
     h2 !! r = Some (d ++ [4%Z]) /\ h2 !! 0 = Some small) /\
  (exists r h1 d h2,
     distinct (from 0) [small] = (Normal r, h1) /\
     [small] !! r = None /\ h1 !! r = Some d /\
     Array_push r 4%Z h1 = (Normal tt, h2) /\
     h2 !! r = Some (d ++ [4%Z]) /\ h2 !! 0 = Some small).
Proof.
  apply (X17_results_are_new_arrays (from 0) Z.even 4%Z [small] small). reflexivity.
Defined.

(** ** First of a sorted or filtered array *)

(** X18. [first()] on a wrapper of the array returned by
    [orderByDescending] is an element of the sequence with the greatest
    key, and among the elements of that key the one that comes first in the
    sequence. *)
Theorem X18_first_of_orderByDescending {T K} `{RelOps K} (total : TotalOrderKey K)
    (this : LinqService) (keySelector : T -> K) (h : heap T) (s : list T) :
  h !! data this = Some s ->
  s <> [] ->
  exists r h1 x later,
    orderByDescending this keySelector h = (Normal r, h1) /\
    first (from r) h1 = (Normal x, h1) /\
    x ∈ s /\
    (forall y, y ∈ s -> js_lt (keySelector x) (keySelector y) = false) /\
    filter_elements (fun z => same_key (keySelector z) (keySelector x)) s = x :: later.
Proof.
  intros H0 Hs.
  pose proof (sort_elements_perm (compare_descending keySelector) s) as Hperm.
  pose proof (descending_sorted keySelector s) as Hsorted.
  pose proof (descending_stable keySelector) as Hstable.
  destruct (sort_elements (compare_descending keySelector) s) as [|x rest] eqn:Hsort.
  { apply Permutation_nil_l in Hperm. by symmetry in Hperm. }
  exists (length h), (h ++ [x :: rest]), x,
    (filter_elements (fun z => same_key (keySelector z) (keySelector x)) rest).
  split; [rewrite <- Hsort; by apply orderByDescending_spec|].
  split; [unfold first, bind, deref, from; cbn [data]; by rewrite lookup_alloc_new|].
  apply StronglySorted_cons in Hsorted as [Hx _]. rewrite Forall_forall in Hx.
  split; [rewrite <- Hperm; by left|]. split.
  - intros y Hy. rewrite <- Hperm in Hy.
    apply elem_of_cons in Hy as [->|Hy]; [apply js_lt_irrefl|by apply Hx].
  - rewrite <- (Hstable (keySelector x) s), Hsort. cbn.
    by rewrite (same_key_refl (keySelector x)).
Qed.

Lemma X18_first_of_orderByDescending_witness :
  exists r h1 x later,
    orderByDescending (from 0) age [items] = (Normal r, h1) /\
    first (from r) h1 = (Normal x, h1) /\
    x ∈ items /\
    (forall y, y ∈ items -> js_lt (age x) (age y) = false) /\
    filter_elements (fun z => same_key (age z) (age x)) items = x :: later.
Proof.
  apply (X18_first_of_orderByDescending Z_total (from 0) age [items] items).
  - reflexivity.
  - discriminate.
Defined.

Lemma filter_elements_head {T} (p : T -> bool) (s : list T) :
  (some_element p s = false /\ filter_elements p s = []) \/
  (some_element p s = true /\
   exists before x after,
     s = before ++ x :: after /\ p x = true /\
     (forall y, y ∈ before -> p y = false) /\
     filter_elements p s = x :: filter_elements p after).
Proof.
  induction s as [|y s IH]; cbn; [by left|].
  destruct (p y) eqn:Hy.
  - right. split; [reflexivity|]. exists [], y, s. repeat split; [done|].
    intros z Hz. by apply elem_of_nil in Hz.
  - destruct IH as [[Hnone Hnil]|(Hsome & before & x & after & -> & Hx & Hbefore & Hf)].
    + by left.
    + right. split; [exact Hsome|]. exists (y :: before), x, after.
      repeat split; [exact Hx| |exact Hf].
      intros z [->|Hz]%elem_of_cons; [exact Hy|by apply Hbefore].
Qed.

(** X19. [first()] on a wrapper of the array returned by [where(p)] finds
    the first element that satisfies [p]: it throws the InvalidOperation
    error exactly when [any(p)] is false, and otherwise returns an element
    that satisfies [p] and stands in the sequence behind elements that all
    fail [p]. *)
Theorem X19_first_of_where {T}
    (this : LinqService) (p : T -> bool) (h : heap T) (s : list T) :
  h !! data this = Some s ->
  exists r h1 some,
    where_ this p h = (Normal r, h1) /\
    any this p h = (Normal some, h) /\
    (some = false -> first (from r) h1 = (Throw InvalidOperationException, h1)) /\
    (some = true ->
     exists before x after,
       first (from r) h1 = (Normal x, h1) /\
       s = before ++ x :: after /\ p x = true /\
       (forall y, y ∈ before -> p y = false)).
Proof.
  intros H0. exists (length h), (h ++ [filter_elements p s]), (some_element p s).
  split; [by apply where_spec|]. split; [by apply (@any_spec T)|].
  unfold first, bind, deref, from; cbn [data]. rewrite lookup_alloc_new.
  destruct (filter_elements_head p s)
    as [[-> ->]|(-> & before & x & after & Hs & Hx & Hbefore & ->)].
  - split; [reflexivity|discriminate].
  - split; [discriminate|]. intros _. by exists before, x, after.
Qed.

Lemma X19_first_of_where_witness :
  exists r h1 some,
    where_ (from 0) (fun n => 2 <? n)%Z [upto5] = (Normal r, h1) /\
    any (from 0) (fun n => 2 <? n)%Z [upto5] = (Normal some, [upto5]) /\
    (some = false -> first (from r) h1 = (Throw InvalidOperationException, h1)) /\
    (some = true ->
     exists before x after,
       first (from r) h1 = (Normal x, h1) /\
       upto5 = before ++ x :: after /\ (2 <? x)%Z = true /\
       (forall y, y ∈ before -> (2 <? y)%Z = false)).
Proof.
  apply (X19_first_of_where (from 0) (fun n => 2 <? n)%Z [upto5] upto5). reflexivity.
Defined.

End Linq.
